(** * flanker.addresslib.corrector: the domain spelling corrector

  A shallow embedding of [src/flanker/addresslib/corrector.py] and of the
  two library entry points it delegates to ([difflib.get_close_matches] of
  the Python standard library and [Levenshtein.ratio]), followed by the
  properties of [suggest].

  Conventions of the embedding:
  - a Python [str] is a Rocq [string], a sequence of characters with
    8-bit codes; [len], indexing and comparison work character by
    character, and no definition depends on the size of the alphabet;
  - a Python [int] is a [Z];
  - a Python [float] is an IEEE 754 binary64 value, [spec_float] with
    precision 53 and maximal exponent 1024;
  - a call that may raise returns a [result]. *)

From Stdlib Require Import ZArith List String Ascii Bool Lia.
From Stdlib Require Import Floats.SpecFloat.
Import ListNotations.

Open Scope string_scope.
Open Scope list_scope.
Open Scope Z_scope.

(* ================================================================== *)
(** ** Python values and effects *)

Module Py.

(** The exceptions the embedded code can raise. *)
Inductive exn : Type :=
| ValueError
| TypeError
| IndexError
| ZeroDivisionError.

Inductive result (A : Type) : Type :=
| Ok (a : A)
| Raise (e : exn).
Arguments Ok {A} a.
Arguments Raise {A} e.

Definition bind {A B} (c : result A) (k : A -> result B) : result B :=
  match c with
  | Ok a => k a
  | Raise e => Raise e
  end.

Definition str := string.

(** [len(s)] *)
Definition len (s : str) : Z := Z.of_nat (String.length s).

(** [len(l)] on a list *)
Definition llen {A} (l : list A) : Z := Z.of_nat (List.length l).

(** [l[i]] for a non-negative index: [IndexError] out of range. *)
Definition index {A} (l : list A) (i : nat) : result A :=
  match nth_error l i with
  | Some x => Ok x
  | None => Raise IndexError
  end.

(** [range(lo, hi)] *)
Definition range (lo hi : Z) : list Z :=
  map (fun k => lo + Z.of_nat k) (seq 0 (Z.to_nat (hi - lo))).

(** A parameter with a default value: [None] when the caller leaves the
    argument out. *)
Definition arg {A} (dflt : A) (a : option A) : A :=
  match a with
  | Some x => x
  | None => dflt
  end.

(** *** Floats (binary64) *)

Definition float := spec_float.
Definition prec : Z := 53.
Definition emax : Z := 1024.

(** [float(n)] for a Python int. *)
Definition float_of_int (n : Z) : float := binary_normalize prec emax n 0 false.

Definition fmul (x y : float) : float := SFmul prec emax x y.
(** [x / y] where the divisor is known to be non-zero. *)
Definition fdiv (x y : float) : float := SFdiv prec emax x y.

(** [x / n] for a float and an int: [ZeroDivisionError] on [n == 0]. *)
Definition truediv (x : float) (n : Z) : result float :=
  if n =? 0 then Raise ZeroDivisionError else Ok (fdiv x (float_of_int n)).

(** Comparisons; each is false as soon as one side is a NaN. *)
Definition flt (x y : float) : bool := SFltb x y.   (* x < y  *)
Definition fle (x y : float) : bool := SFleb x y.   (* x <= y *)
Definition fgt (x y : float) : bool := SFltb y x.   (* x > y  *)
Definition fge (x y : float) : bool := SFleb y x.   (* x >= y *)
Definition feq (x y : float) : bool := SFeqb x y.   (* x == y *)

(** The literal [p/q] written in decimal: the binary64 value nearest to
    the rational, which correctly rounded division of two exactly
    representable integers yields. *)
Definition decimal (p q : Z) : float := fdiv (float_of_int p) (float_of_int q).

Definition f0_0 : float := S754_zero false.
Definition f1_0 : float := float_of_int 1.
Definition f2_0 : float := float_of_int 2.

(** [s1 > s2] on strings: lexicographic on the characters. *)
Definition str_gt (s1 s2 : str) : bool :=
  match String.compare s1 s2 with
  | Gt => true
  | _ => false
  end.

(** [(s1, x1) > (s2, x2)] on (float, str) tuples: the first component
    that differs (by [==]) decides. *)
Definition tuple_gt (t1 t2 : float * str) : bool :=
  let '(s1, x1) := t1 in
  let '(s2, x2) := t2 in
  if negb (feq s1 s2) then fgt s1 s2
  else if negb (String.eqb x1 x2) then str_gt x1 x2
  else false.

(** [max(l)] on a non-empty list keeps the first item that no later item
    exceeds. *)
Fixpoint max_from {A} (gt : A -> A -> bool) (maxitem : A) (l : list A) : A :=
  match l with
  | [] => maxitem
  | item :: l' => max_from gt (if gt item maxitem then item else maxitem) l'
  end.

End Py.
Import Py.

Notation "x <- c ;; k" := (bind c (fun x => k))
(at level 61, c at next level, right associativity).

(* ================================================================== *)
(** ** [Levenshtein.ratio]

  The extension module is not part of the repository.  Its [ratio] is
  [(lensum - ldist) / lensum], where [ldist] is the edit distance in
  which an insertion or a deletion costs 1 and a substitution costs 2,
  and [1.0] when both strings are empty. *)

Module Levenshtein.

(** One row of the dynamic programme: [up] runs over the previous row,
    [diag] is its entry one column to the left, [left] the entry just
    computed in the current row. *)
Fixpoint row (c : ascii) (s2 : list ascii) (diag : Z) (prev : list Z) (left : Z)
  : list Z :=
  match s2, prev with
  | d :: s2', up :: prev' =>
      let v := Z.min (Z.min (up + 1) (left + 1))
                     (diag + (if Ascii.eqb c d then 0 else 2)) in
      v :: row c s2' up prev' v
  | _, _ => []
  end.

Fixpoint rows (s1 s2 : list ascii) (i : Z) (prev : list Z) : list Z :=
  match s1 with
  | [] => prev
  | c :: s1' =>
      match prev with
      | [] => []
      | d0 :: prev' => rows s1' s2 (i + 1) ((i + 1) :: row c s2 d0 prev' (i + 1))
      end
  end.

Definition distance (s1 s2 : str) : Z :=
  let l2 := list_ascii_of_string s2 in
  last (rows (list_ascii_of_string s1) l2 0 (range 0 (len s2 + 1))) 0.

Definition ratio (s1 s2 : str) : float :=
  let lensum := len s1 + len s2 in
  if lensum =? 0 then f1_0
  else fdiv (float_of_int (lensum - distance s1 s2)) (float_of_int lensum).

End Levenshtein.

(* ================================================================== *)
(** ** [difflib.SequenceMatcher] and [difflib.get_close_matches]

  The standard library code [suggest] calls in its default branch
  (CPython, [Lib/difflib.py]).  [get_close_matches] builds
  [SequenceMatcher()] with [isjunk=None] and [autojunk=True], sets the
  word as the second sequence [b] once, and each possibility in turn as
  the first sequence [a]. *)

Module Difflib.

Definition sequence := list ascii.

(** [a[i]] for an index in range. *)
Definition item (a : sequence) (i : Z) : ascii := nth (Z.to_nat i) a Ascii.zero.

Definition slen (a : sequence) : Z := Z.of_nat (List.length a).

(** *** [__chain_b]: the index [b2j] of the positions of each element of [b] *)

Definition b2j_t := list (ascii * list Z).

(** [b2j.setdefault(elt, []).append(i)] *)
Fixpoint setdefault_append (b2j : b2j_t) (elt : ascii) (i : Z) : b2j_t :=
  match b2j with
  | [] => [(elt, [i])]
  | (k, indices) :: rest =>
      if Ascii.eqb k elt then (k, indices ++ [i]) :: rest
      else (k, indices) :: setdefault_append rest elt i
  end.

Fixpoint enumerate (i : Z) (b : sequence) : list (Z * ascii) :=
  match b with
  | [] => []
  | elt :: b' => (i, elt) :: enumerate (i + 1) b'
  end.

(** With [isjunk=None] there is no junk; with [autojunk] and
    [len(b) >= 200] the elements occurring more than [n // 100 + 1] times
    are "popular" and leave the index. *)
Definition chain_b (b : sequence) (autojunk : bool) : b2j_t :=
  let b2j := fold_left (fun d ie => setdefault_append d (snd ie) (fst ie))
                       (enumerate 0 b) [] in
  let n := slen b in
  if autojunk && (200 <=? n) then
    let ntest := n / 100 + 1 in
    filter (fun kv => negb (ntest <? llen (snd kv))) b2j
  else b2j.

(** [bjunk] is empty for [isjunk=None]. *)
Definition isbjunk (c : ascii) : bool := false.

Definition b2j_get (b2j : b2j_t) (c : ascii) : list Z :=
  match find (fun kv => Ascii.eqb (fst kv) c) b2j with
  | Some kv => snd kv
  | None => []
  end.

(** [j2len.get(j, default)] *)
Definition j2len_get (j2len : list (Z * Z)) (j : Z) (dflt : Z) : Z :=
  match find (fun kv => fst kv =? j) j2len with
  | Some kv => snd kv
  | None => dflt
  end.

Definition match_t := (Z * Z * Z)%type.   (* Match(a, b, size) *)

(** *** [find_longest_match] *)

(** The inner loop [for j in b2j.get(a[i], nothing)]; the positions come
    in increasing order, [continue] below [blo] and [break] from [bhi]. *)
Fixpoint scan_row (i blo bhi : Z) (js : list Z) (j2len newj2len : list (Z * Z))
         (best : match_t) : list (Z * Z) * match_t :=
  match js with
  | [] => (newj2len, best)
  | j :: js' =>
      if j <? blo then scan_row i blo bhi js' j2len newj2len best
      else if bhi <=? j then (newj2len, best)
      else
        let k := j2len_get j2len (j - 1) 0 + 1 in
        let '(besti, bestj, bestsize) := best in
        scan_row i blo bhi js' j2len ((j, k) :: newj2len)
                 (if bestsize <? k then (i - k + 1, j - k + 1, k) else best)
  end.

(** The outer loop [for i in range(alo, ahi)]. *)
Fixpoint scan (a : sequence) (b2j : b2j_t) (blo bhi : Z) (rng : list Z)
         (j2len : list (Z * Z)) (best : match_t) : match_t :=
  match rng with
  | [] => best
  | i :: rng' =>
      let '(newj2len, best') :=
        scan_row i blo bhi (b2j_get b2j (item a i)) j2len [] best in
      scan a b2j blo bhi rng' newj2len best'
  end.

(** [while besti > alo and bestj > blo and <junk test> and
    a[besti-1] == b[bestj-1]]: each turn lowers [besti] by one, so the
    loop makes at most [besti - alo] turns and [n] starts there. *)
Fixpoint extend_left (junk : bool) (n : nat) (a b : sequence) (alo blo : Z)
         (best : match_t) : match_t :=
  match n with
  | O => best
  | S n' =>
      let '(besti, bestj, bestsize) := best in
      if (alo <? besti) && (blo <? bestj)
         && Bool.eqb (isbjunk (item b (bestj - 1))) junk
         && Ascii.eqb (item a (besti - 1)) (item b (bestj - 1))
      then extend_left junk n' a b alo blo (besti - 1, bestj - 1, bestsize + 1)
      else best
  end.

(** [while besti+bestsize < ahi and bestj+bestsize < bhi and <junk test>
    and a[besti+bestsize] == b[bestj+bestsize]]: at most
    [ahi - (besti+bestsize)] turns. *)
Fixpoint extend_right (junk : bool) (n : nat) (a b : sequence) (ahi bhi : Z)
         (best : match_t) : match_t :=
  match n with
  | O => best
  | S n' =>
      let '(besti, bestj, bestsize) := best in
      if (besti + bestsize <? ahi) && (bestj + bestsize <? bhi)
         && Bool.eqb (isbjunk (item b (bestj + bestsize))) junk
         && Ascii.eqb (item a (besti + bestsize)) (item b (bestj + bestsize))
      then extend_right junk n' a b ahi bhi (besti, bestj, bestsize + 1)
      else best
  end.

Definition left_room (alo : Z) (best : match_t) : nat :=
  let '(besti, _, _) := best in Z.to_nat (besti - alo).

Definition right_room (ahi : Z) (best : match_t) : nat :=
  let '(besti, _, bestsize) := best in Z.to_nat (ahi - (besti + bestsize)).

Definition find_longest_match (a b : sequence) (b2j : b2j_t)
           (alo ahi blo bhi : Z) : match_t :=
  let best := scan a b2j blo bhi (range alo ahi) [] (alo, blo, 0) in
  let best := extend_left false (left_room alo best) a b alo blo best in
  let best := extend_right false (right_room ahi best) a b ahi bhi best in
  let best := extend_left true (left_room alo best) a b alo blo best in
  extend_right true (right_room ahi best) a b ahi bhi best.

(** *** [get_matching_blocks]

    The source keeps the pending ranges on a list used as a stack: a block
    is recorded, then the range to its right is looked at, then the one to
    its left.  That is the recursion below.  Both ranges are strictly
    shorter in [a] than [(alo, ahi)], whose length bounds the depth. *)
Fixpoint blocks (depth : nat) (a b : sequence) (b2j : b2j_t)
         (alo ahi blo bhi : Z) : list match_t :=
  match depth with
  | O => []
  | S depth' =>
      let '(i, j, k) := find_longest_match a b b2j alo ahi blo bhi in
      if k =? 0 then []
      else
        (i, j, k)
          :: (if (i + k <? ahi) && (j + k <? bhi)
              then blocks depth' a b b2j (i + k) ahi (j + k) bhi else [])
          ++ (if (alo <? i) && (blo <? j)
              then blocks depth' a b b2j alo i blo j else [])
  end.

Definition match_leb (x y : match_t) : bool :=
  let '(i1, j1, k1) := x in
  let '(i2, j2, k2) := y in
  if i1 =? i2 then (if j1 =? j2 then k1 <=? k2 else j1 <? j2) else i1 <? i2.

Fixpoint insert_sorted (x : match_t) (l : list match_t) : list match_t :=
  match l with
  | [] => [x]
  | y :: l' => if match_leb x y then x :: l else y :: insert_sorted x l'
  end.

(** [matching_blocks.sort()] *)
Definition sort (l : list match_t) : list match_t :=
  fold_right insert_sorted [] l.

(** The loop that collapses adjacent blocks; [cur] is [(i1, j1, k1)]. *)
Fixpoint collapse (cur : match_t) (l : list match_t) : list match_t :=
  let '(i1, j1, k1) := cur in
  match l with
  | [] => if k1 =? 0 then [] else [cur]
  | (i2, j2, k2) :: l' =>
      if (i1 + k1 =? i2) && (j1 + k1 =? j2) then collapse (i1, j1, k1 + k2) l'
      else (if k1 =? 0 then [] else [cur]) ++ collapse (i2, j2, k2) l'
  end.

Definition get_matching_blocks (a b : sequence) (b2j : b2j_t) : list match_t :=
  let la := slen a in
  let lb := slen b in
  let matching_blocks := blocks (S (List.length a)) a b b2j 0 la 0 lb in
  collapse (0, 0, 0) (sort matching_blocks) ++ [(la, lb, 0)].

(** *** The three ratios *)

Definition _calculate_ratio (matches length : Z) : float :=
  if negb (length =? 0) then fdiv (fmul f2_0 (float_of_int matches)) (float_of_int length)
  else f1_0.

Definition sum (l : list Z) : Z := fold_left Z.add l 0.

Definition ratio (a b : sequence) (b2j : b2j_t) : float :=
  let matches := sum (map (fun triple => snd triple) (get_matching_blocks a b b2j)) in
  _calculate_ratio matches (slen a + slen b).

Definition count_get (d : list (ascii * Z)) (elt : ascii) : option Z :=
  match find (fun kv => Ascii.eqb (fst kv) elt) d with
  | Some kv => Some (snd kv)
  | None => None
  end.

(** [d[elt] = v] *)
Fixpoint count_set (d : list (ascii * Z)) (elt : ascii) (v : Z) : list (ascii * Z) :=
  match d with
  | [] => [(elt, v)]
  | (k, w) :: rest =>
      if Ascii.eqb k elt then (k, v) :: rest else (k, w) :: count_set rest elt v
  end.

Definition fullbcount (b : sequence) : list (ascii * Z) :=
  fold_left (fun d elt => count_set d elt (arg 0 (count_get d elt) + 1)) b [].

Fixpoint quick_matches (a : sequence) (fullb avail : list (ascii * Z)) (matches : Z) : Z :=
  match a with
  | [] => matches
  | elt :: a' =>
      let numb := match count_get avail elt with
                  | Some n => n
                  | None => arg 0 (count_get fullb elt)
                  end in
      quick_matches a' fullb (count_set avail elt (numb - 1))
                    (if 0 <? numb then matches + 1 else matches)
  end.

Definition quick_ratio (a b : sequence) : float :=
  _calculate_ratio (quick_matches a (fullbcount b) [] 0) (slen a + slen b).

Definition real_quick_ratio (a b : sequence) : float :=
  let la := slen a in
  let lb := slen b in
  _calculate_ratio (Z.min la lb) (la + lb).

(** *** [get_close_matches] *)

(** [s.ratio()] once [s.set_seq2(word)] and [s.set_seq1(x)] have run. *)
Definition similarity (word x : str) : float :=
  let b := list_ascii_of_string word in
  ratio (list_ascii_of_string x) b (chain_b b true).

(** The test of the loop body, evaluated left to right. *)
Definition close_enough (word x : str) (cutoff : float) : bool :=
  let a := list_ascii_of_string x in
  let b := list_ascii_of_string word in
  if fge (real_quick_ratio a b) cutoff then
    if fge (quick_ratio a b) cutoff then fge (similarity word x) cutoff else false
  else false.

(** The list [result] of pairs [(s.ratio(), x)] after the loop. *)
Definition scored (word : str) (possibilities : list str) (cutoff : float)
  : list (float * str) :=
  flat_map (fun x => if close_enough word x cutoff then [(similarity word x, x)] else [])
           possibilities.

(** Insertion into a list kept in decreasing order; an item goes behind
    the items it does not exceed. *)
Fixpoint insert_desc (t : float * str) (l : list (float * str)) : list (float * str) :=
  match l with
  | [] => [t]
  | u :: l' => if tuple_gt t u then t :: l else u :: insert_desc t l'
  end.

(** [heapq.nlargest(n, result)]: [max] for [n == 1], and the first [n]
    items of the list sorted in decreasing order otherwise. *)
Definition nlargest (n : Z) (result : list (float * str)) : list (float * str) :=
  if n =? 1 then
    match result with
    | [] => []
    | head :: rest => [max_from tuple_gt head rest]
    end
  else firstn (Z.to_nat n) (fold_left (fun acc t => insert_desc t acc) result []).

(** [0.0 <= cutoff <= 1.0] *)
Definition valid_cutoff (cutoff : float) : bool :=
  fle f0_0 cutoff && fle cutoff f1_0.

Definition get_close_matches (word : str) (possibilities : list str)
           (n : Z) (cutoff : float) : result (list str) :=
  if negb (0 <? n) then Raise ValueError
  else if negb (valid_cutoff cutoff) then Raise ValueError
  else Ok (map snd (nlargest n (scored word possibilities cutoff))).

End Difflib.

(* ================================================================== *)
(** ** [flanker/addresslib/corrector.py] *)

Module Corrector.

Definition MOST_COMMON_DOMAINS : list str :=
  [ "mailgun.net"; "163.com"; "aim.com"; "alice.it"; "aol.co.uk";
    "aol.com"; "att.net"; "azet.sk"; "bell.net"; "bellsouth.net";
    "bigpond.com"; "bigpond.com.au"; "bigpond.net.au"; "bluewin.ch";
    "blueyonder.co.uk"; "bol.com.br"; "btinternet.com"; "btopenworld.com";
    "cableone.net"; "centrum.sk"; "centurylink.net"; "centurytel.net";
    "charter.net"; "comcast.net"; "cox.net"; "cs.com"; "earthlink.net";
    "email.com"; "email.cz"; "email.it"; "embarqmail.com"; "excite.com";
    "fastwebnet.it"; "free.fr"; "freemail.hu"; "freenet.de";
    "frontier.com"; "frontiernet.net"; "fuse.net"; "gmail.com"; "gmx.at";
    "gmx.ch"; "gmx.com"; "gmx.de"; "gmx.net"; "google.com";
    "googlemail.com"; "hanmail.net"; "home.nl"; "hotmail.be"; "hotmail.ca";
    "hotmail.co.jp"; "hotmail.co.nz"; "hotmail.co.uk"; "hotmail.com";
    "hotmail.com.ar"; "hotmail.com.au"; "hotmail.de"; "hotmail.es";
    "hotmail.fr"; "hotmail.gr"; "hotmail.it"; "hotmail.nl"; "hotmail.no";
    "hotmail.se"; "hughes.net"; "icloud.com"; "iinet.net.au"; "inbox.lv";
    "inbox.ru"; "interia.pl"; "juno.com"; "laposte.net"; "libero.it";
    "list.ru"; "live.be"; "live.ca"; "live.co.uk"; "live.com";
    "live.com.ar"; "live.com.au"; "live.com.mx"; "live.de"; "live.dk";
    "live.fr"; "live.it"; "live.nl"; "live.no"; "live.se"; "mac.com";
    "mail.com"; "mail.ru"; "me.com"; "microsoft.com"; "mindspring.com";
    "msn.com"; "naver.com"; "netscape.net"; "netspace.net.au";
    "netzero.com"; "netzero.net"; "neuf.fr"; "nhs.net"; "ntlworld.com";
    "o2.pl"; "online.no"; "optimum.net"; "optonline.net";
    "optusnet.com.au"; "orange.fr"; "ostrovok.ru"; "outlook.com";
    "outlook.com.au"; "outlook.de"; "outlook.es"; "outlook.fr";
    "outlook.it"; "pacbell.net"; "planet.nl"; "prodigy.net";
    "prodigy.net.mx"; "protonmail.com"; "q.com"; "qq.com"; "rambler.ru";
    "reagan.com"; "rediffmail.com"; "roadrunner.com"; "rocketmail.com";
    "rogers.com"; "sbcglobal.net"; "seznam.cz"; "sfr.fr"; "shaw.ca";
    "sky.com"; "skynet.be"; "suddenlink.net"; "swbell.net"; "sympatico.ca";
    "t-online.de"; "talktalk.net"; "telefonica.net"; "telenet.be";
    "telfort.nl"; "telia.com"; "telus.net"; "telusplanet.net";
    "tiscali.co.uk"; "tiscali.it"; "ukr.net"; "uol.com.br"; "usa.net";
    "vepl.com"; "verizon.net"; "videotron.ca"; "virgilio.it"; "virgin.net";
    "virginmedia.com"; "wanadoo.fr"; "web.de"; "windowslive.com";
    "windstream.net"; "wp.pl"; "xs4all.nl"; "xtra.co.nz"; "y7mail.com";
    "ya.ru"; "yahoo.ca"; "yahoo.co.id"; "yahoo.co.in"; "yahoo.co.jp";
    "yahoo.co.nz"; "yahoo.co.uk"; "yahoo.com"; "yahoo.com.ar";
    "yahoo.com.au"; "yahoo.com.br"; "yahoo.com.hk"; "yahoo.com.mx";
    "yahoo.com.my"; "yahoo.com.ph"; "yahoo.com.sg"; "yahoo.com.tw";
    "yahoo.de"; "yahoo.es"; "yahoo.fr"; "yahoo.gr"; "yahoo.ie"; "yahoo.in";
    "yahoo.it"; "yahoo.no"; "yahoo.se"; "yandex.com"; "yandex.ru";
    "ymail.com"; "ziggo.nl"; "zoominternet.net" ].

Definition LOOKUP_TABLE : list (str * str) :=
  [ ("yahoo", "yahoo.com");
    ("gmail", "gmail.com");
    ("hotmail", "hotmail.com");
    ("live", "live.com");
    ("outlook", "outlook.com");
    ("msn", "msn.com");
    ("googlemail", "googlemail.com");
    ("aol", "aol.com");
    ("aim", "aim.com");
    ("icloud", "icloud.com");
    ("me", "me.com");
    ("mac", "mac.com");
    ("facebook", "facebook.com");
    ("comcast", "comcast.net");
    ("sbcglobal", "sbcglobal.net");
    ("bellsouth", "bellsouth.net");
    ("verizon", "verizon.net");
    ("earthlink", "earthlink.net");
    ("cox", "cox.net");
    ("charter", "charter.net");
    ("shaw", "shaw.ca");
    ("bell", "bell.net") ].

(** *** Dictionaries, as association lists in insertion order *)

Fixpoint dict_get {V} (d : list (str * V)) (k : str) : option V :=
  match d with
  | [] => None
  | (k', v) :: d' => if String.eqb k' k then Some v else dict_get d' k
  end.

Fixpoint dict_set {V} (d : list (str * V)) (k : str) (v : V) : list (str * V) :=
  match d with
  | [] => [(k, v)]
  | (k', v') :: d' =>
      if String.eqb k' k then (k', v) :: d' else (k', v') :: dict_set d' k v
  end.

(** [w in l] *)
Definition mem (w : str) (l : list str) : bool := existsb (String.eqb w) l.

(** *** [levenshtein]

    The comprehension is evaluated before [append] runs, so [matches] is
    still the empty list inside it. *)
Definition levenshtein (word : str) (word_list : list str)
           (n : option Z) (cutoff : option float) : result (list str) :=
  let n := arg 1 n in
  let cutoff := arg (decimal 80 100) cutoff in
  let matches : list (list str) := [] in
  let matches :=
    matches ++ [filter (fun domain =>
                          fgt (Levenshtein.ratio word domain) cutoff
                          && (llen matches <=? n))
                       word_list] in
  index matches 0.

(** *** [spelling] and its nested functions *)

(** [Counter(word_list)] *)
Definition Counter (word_list : list str) : list (str * Z) :=
  fold_left (fun d w => dict_set d w (arg 0 (dict_get d w) + 1)) word_list [].

(** What the nested functions are applied to. *)
Inductive value : Type :=
| VStr (s : str)
| VCounter (c : list (str * Z)).

(** A function object: the number of its positional parameters and its
    body.  A call with another number of arguments is a [TypeError]. *)
Record function : Type :=
  { params : nat;
    code : list value -> result float }.

Definition call (f : function) (args : list value) : result float :=
  if Nat.eqb (List.length args) (params f) then code f args else Raise TypeError.

(** [def probability(word, WORDS)]; [WORDS[word]] is 0 for a missing key. *)
Definition probability : function :=
  {| params := 2;
     code := fun args =>
               match args with
               | [VStr word; VCounter WORDS] =>
                   let N := Difflib.sum (map snd WORDS) in
                   truediv (float_of_int (arg 0 (dict_get WORDS word))) N
               | _ => Raise TypeError
               end |}.

(** A set of strings is a list without repetition; the order in which a
    Python set is iterated is not specified, the model takes the order of
    first insertion. *)
Definition set_add (s : list str) (w : str) : list str :=
  if mem w s then s else s ++ [w].

Definition set_of (l : list str) : list str := fold_left set_add l [].

(** What [known] can be handed: a list, a set, or a generator, which is
    consumed as it is iterated. *)
Inductive iterable : Type :=
| a_list (l : list str)
| a_set (l : list str)
| a_generator (l : list str).

Definition items (it : iterable) : list str :=
  match it with
  | a_list l | a_set l | a_generator l => l
  end.

(** [w for w in words if w in words] when [words] is a generator: the
    test [w in words] advances the very generator the loop iterates,
    up to and including the next item equal to [w]; [w] is dropped, and
    the loop ends, when there is none. *)
Fixpoint known_generator (pending : list str) {struct pending} : list str :=
  match pending with
  | [] => []
  | w :: rest => seek w rest
  end
with seek (w : str) (rest : list str) {struct rest} : list str :=
  match rest with
  | [] => []
  | x :: rest' => if String.eqb x w then w :: known_generator rest' else seek w rest'
  end.

(** [def known(words): return set(w for w in words if w in words)] *)
Definition known (words : iterable) : list str :=
  match words with
  | a_list l | a_set l => set_of (filter (fun w => mem w l) l)
  | a_generator l => set_of (known_generator l)
  end.

Definition letters : str := "abcdefghijklmnopqrstuvwxyz".

(** [s[i:]] and [s[:i]] *)
Definition slice_from (s : str) (i : nat) : str :=
  String.substring i (String.length s - i) s.
Definition slice_to (s : str) (i : nat) : str := String.substring 0 i s.

(** [s[i]] as a string, for [i] in range *)
Definition char_at (s : str) (i : nat) : str := String.substring i 1 s.

Definition edits1 (word : str) : list str :=
  let splits := map (fun i => (slice_to word i, slice_from word i))
                    (seq 0 (String.length word + 1)) in
  let chars := map (fun c => String c EmptyString) (list_ascii_of_string letters) in
  let deletes :=
    flat_map (fun LR => let '(L, R) := LR in
                        if negb (String.eqb R EmptyString) then [(L ++ slice_from R 1)%string]
                        else []) splits in
  let transposes :=
    flat_map (fun LR => let '(L, R) := LR in
                        if (1 <? len R)
                        then [(L ++ char_at R 1 ++ char_at R 0 ++ slice_from R 2)%string]
                        else []) splits in
  let replaces :=
    flat_map (fun LR => let '(L, R) := LR in
                        if negb (String.eqb R EmptyString)
                        then map (fun c => (L ++ c ++ slice_from R 1)%string) chars
                        else []) splits in
  let inserts :=
    flat_map (fun LR => let '(L, R) := LR in
                        map (fun c => (L ++ c ++ R)%string) chars) splits in
  set_of (deletes ++ transposes ++ replaces ++ inserts).

(** [(e2 for e1 in edits1(word) for e2 in edits1(e1))] *)
Definition edits2 (word : str) : list str :=
  flat_map edits1 (edits1 word).

Definition nonempty {A} (l : list A) : bool :=
  match l with
  | [] => false
  | _ :: _ => true
  end.

(** [known([word]) or known(edits1(word)) or known(edits2(word)) or [word]] *)
Definition candidates (word : str) : iterable :=
  let k0 := known (a_list [word]) in
  if nonempty k0 then a_set k0
  else
    let k1 := known (a_set (edits1 word)) in
    if nonempty k1 then a_set k1
    else
      let k2 := known (a_generator (edits2 word)) in
      if nonempty k2 then a_set k2 else a_list [word].

(** [max(iterable, key=f)]: [f] is called on every item with that item as
    its only argument. *)
Fixpoint max_key_from (key : function) (maxitem : str) (maxval : float)
         (l : list str) : result str :=
  match l with
  | [] => Ok maxitem
  | item :: l' =>
      val <- call key [VStr item] ;;
      if fgt val maxval then max_key_from key item val l'
      else max_key_from key maxitem maxval l'
  end.

Definition max_key (l : list str) (key : function) : result str :=
  match l with
  | [] => Raise ValueError
  | item :: l' =>
      val <- call key [VStr item] ;;
      max_key_from key item val l'
  end.

(** [def correction(word): return max(candidates(word), key=probability)] *)
Definition correction (word : str) : result str :=
  max_key (items (candidates word)) probability.

(** [def spelling(word, word_list, n=1, cutoff=0.00)]; [WORDS] is built
    and then used by no call. *)
Definition spelling (word : str) (word_list : list str)
           (n : option Z) (cutoff : option float) : result str :=
  let WORDS := Counter word_list in
  correction word.

(** *** [suggest] *)

(** [word_list = override if override else MOST_COMMON_DOMAINS]: [None]
    and the empty list are both false. *)
Definition word_list (override : option (list str)) : list str :=
  match override with
  | Some (d :: l) => d :: l
  | Some [] | None => MOST_COMMON_DOMAINS
  end.

(** What [guess] holds: the list of one of the two matchers, or the
    string [spelling] returns. *)
Inductive guess_t : Type :=
| matches (l : list str)
| correction_of (s : str).

Definition suggest (word : str) (cutoff : option float)
           (override : option (list str)) (algo : option str) : result str :=
  let cutoff := arg (decimal 77 100) cutoff in
  let algo := arg "difflib" algo in
  let word_list := word_list override in
  match dict_get LOOKUP_TABLE word with
  | Some v => Ok v
  | None =>
      guess <- (if String.eqb algo "levenshtein" then
                  l <- levenshtein word word_list None (Some cutoff) ;; Ok (matches l)
                else if String.eqb algo "spellr" then
                  s <- spelling word word_list None None ;; Ok (correction_of s)
                else
                  l <- Difflib.get_close_matches word word_list 1 cutoff ;;
                  Ok (matches l)) ;;
      match guess with
      | matches (g :: _) => Ok g
      | correction_of (String c _) => Ok (String c EmptyString)
      | matches [] | correction_of EmptyString => Ok word
      end
  end.

End Corrector.

Import Corrector.

(* ================================================================== *)
(** ** The selection rules as the specification words them

  These two definitions follow the text of the specification (section
  4.1, variants A and B), not the source; they are what [suggest] is
  compared with. *)

Module Spec.

(** Variant A: "the single highest-scoring candidate whose score exceeds
    cutoff", "first-encountered in list order among equal top scores",
    the input when none qualifies. *)
Definition exceeding (word : str) (cutoff : float) (wl : list str) : list (float * str) :=
  filter (fun t => fgt (fst t) cutoff)
         (map (fun x => (Difflib.similarity word x, x)) wl).

Fixpoint first_highest (best : float * str) (l : list (float * str)) : float * str :=
  match l with
  | [] => best
  | t :: l' => first_highest (if fgt (fst t) (fst best) then t else best) l'
  end.

Definition block_matching (word : str) (cutoff : float) (wl : list str) : str :=
  match exceeding word cutoff wl with
  | [] => word
  | t :: l => snd (first_highest t l)
  end.

(** Variant B: "collect all domains whose ratio exceeds cutoff (default
    0.80 for this variant); return the first collected match (at most
    one)", the input when none qualifies. *)
Definition edit_distance (word : str) (cutoff : option float) (wl : list str) : str :=
  let c := arg (decimal 80 100) cutoff in
  match firstn 1 (filter (fun d => fgt (Levenshtein.ratio word d) c) wl) with
  | d :: _ => d
  | [] => word
  end.

End Spec.

(* ================================================================== *)
(** ** Notions used in the statements and in the proofs *)

(** The matcher of the [else] branch is chosen: [algo] is neither
    ['levenshtein'] nor ['spellr']. *)
Definition block_matching_chosen (algo : option str) : Prop :=
  arg "difflib" algo <> "levenshtein" /\ arg "difflib" algo <> "spellr".

(** The score a matcher gives a domain. *)
Definition score (algo : option str) (word d : str) : float :=
  if String.eqb (arg "difflib" algo) "levenshtein" then Levenshtein.ratio word d
  else Difflib.similarity word d.

Module Notions.

Import Difflib.

(** The order on the exponent and the mantissa of two finite floats of
    one sign. *)
Definition lex (e1 : Z) (m1 : positive) (e2 : Z) (m2 : positive) : comparison :=
  match e1 ?= e2 with
  | Lt => Lt
  | Gt => Gt
  | Eq => Pos.compare m1 m2
  end.

(** Composition of two comparisons that both say "at most". *)
Definition then_cmp (c1 c2 : comparison) : comparison :=
  match c1 with
  | Eq => c2
  | _ => Lt
  end.

(** What every stage of [find_longest_match] keeps true of its best
    match so far, in the range [alo, ahi) of [a]. *)
Definition in_bounds (alo ahi : Z) (best : match_t) : Prop :=
  let '(besti, _, bestsize) := best in
  0 <= bestsize
  /\ (bestsize = 0 -> besti = alo)
  /\ (0 < bestsize -> besti < ahi /\ alo < besti + bestsize <= ahi).

Definition nonneg (j2len : list (Z * Z)) : Prop :=
  Forall (fun kv => 0 <= snd kv) j2len.

(** What [suggest] returns from its [else] branch once the cutoff is
    accepted. *)
Definition best_match (word : str) (wl : list str) (c : float) : str :=
  match scored word wl c with
  | [] => word
  | head :: rest => snd (max_from tuple_gt head rest)
  end.

Definition chars (s : str) : sequence := list_ascii_of_string s.

(** The number of matched characters [s.ratio()] is computed from. *)
Definition matched (word x : str) : Z :=
  sum (map (fun triple => snd triple)
           (get_matching_blocks (chars x) (chars word) (chain_b (chars word) true))).

(** Equality of two floats as data. *)
Definition same_float (x y : float) : bool :=
  match x, y with
  | S754_zero s1, S754_zero s2 => Bool.eqb s1 s2
  | S754_infinity s1, S754_infinity s2 => Bool.eqb s1 s2
  | S754_nan, S754_nan => true
  | S754_finite s1 m1 e1, S754_finite s2 m2 e2 =>
      Bool.eqb s1 s2 && Pos.eqb m1 m2 && (e1 =? e2)
  | _, _ => false
  end.

(** [2.0 * m / L] against [1.0], for the small [m] and [L] that occur. *)
Definition ratio_ok (m L : Z) : bool :=
  if 2 * m <? L then flt (_calculate_ratio m L) f1_0
  else if 2 * m =? L then same_float (_calculate_ratio m L) f1_0
       else true.

(** What is checked, by evaluation, of a domain [D] against a list [l]:
    [D] is no key of the table, matching [D] with itself matches every
    character, and with another domain of [l] less than half of the
    characters of the two. *)
Definition wins (l : list str) (D : str) : bool :=
  match dict_get LOOKUP_TABLE D with Some _ => false | None => true end
  && (1 <=? slen (chars D)) && (slen (chars D) <? 40)
  && (quick_matches (chars D) (fullbcount (chars D)) [] 0 =? slen (chars D))
  && (matched D D =? slen (chars D))
  && forallb (fun y => String.eqb y D
                       || ((0 <=? matched D y)
                           && (2 * matched D y <? slen (chars y) + slen (chars D))
                           && (slen (chars y) + slen (chars D) <? 80))) l.

End Notions.
Import Notions.

(* ================================================================== *)
(** ** Order facts on floats, strings and score tuples *)

Module OrderFacts.

Lemma SFcompare_antisym (x y : float) :
  SFcompare y x = option_map CompOpp (SFcompare x y).
Proof.
  destruct x as [[]|[]| |[] m1 e1], y as [[]|[]| |[] m2 e2]; simpl; try reflexivity;
    rewrite (Z.compare_antisym e1 e2); destruct (e1 ?= e2); simpl; try reflexivity;
    change (Pos.compare_cont Eq m2 m1) with (Pos.compare m2 m1);
    change (Pos.compare_cont Eq m1 m2) with (Pos.compare m1 m2);
    rewrite (Pos.compare_antisym m1 m2); destruct (m1 ?= m2)%positive; reflexivity.
Qed.

Lemma lex_spec e1 m1 e2 m2 :
  CompareSpec (e1 = e2 /\ m1 = m2)
              (e1 < e2 \/ (e1 = e2 /\ (m1 < m2)%positive))
              (e2 < e1 \/ (e1 = e2 /\ (m2 < m1)%positive))
              (lex e1 m1 e2 m2).
Proof.
  unfold lex.
  destruct (Z.compare_spec e1 e2); [|constructor; lia|constructor; lia].
  destruct (Pos.compare_spec m1 m2); constructor; lia.
Qed.

Lemma lex_trans e1 m1 e2 m2 e3 m3 :
  lex e1 m1 e2 m2 <> Gt -> lex e2 m2 e3 m3 <> Gt ->
  lex e1 m1 e3 m3 = then_cmp (lex e1 m1 e2 m2) (lex e2 m2 e3 m3).
Proof.
  destruct (lex_spec e1 m1 e2 m2), (lex_spec e2 m2 e3 m3), (lex_spec e1 m1 e3 m3);
    intros; simpl in *; try reflexivity; try congruence; exfalso; lia.
Qed.

Lemma lex_trans_opp e1 m1 e2 m2 e3 m3 :
  CompOpp (lex e1 m1 e2 m2) <> Gt -> CompOpp (lex e2 m2 e3 m3) <> Gt ->
  CompOpp (lex e1 m1 e3 m3)
  = then_cmp (CompOpp (lex e1 m1 e2 m2)) (CompOpp (lex e2 m2 e3 m3)).
Proof.
  destruct (lex_spec e1 m1 e2 m2), (lex_spec e2 m2 e3 m3), (lex_spec e1 m1 e3 m3);
    intros; simpl in *; try reflexivity; try congruence; exfalso; lia.
Qed.

Lemma SFcompare_finite_pos m1 e1 m2 e2 :
  SFcompare (S754_finite false m1 e1) (S754_finite false m2 e2) = Some (lex e1 m1 e2 m2).
Proof. reflexivity. Qed.

Lemma SFcompare_finite_neg m1 e1 m2 e2 :
  SFcompare (S754_finite true m1 e1) (S754_finite true m2 e2)
  = Some (CompOpp (lex e1 m1 e2 m2)).
Proof. unfold lex; simpl; destruct (e1 ?= e2); reflexivity. Qed.

Lemma SFcompare_trans (a b c : float) (c1 c2 : comparison) :
  SFcompare a b = Some c1 -> SFcompare b c = Some c2 ->
  c1 <> Gt -> c2 <> Gt ->
  SFcompare a c = Some (then_cmp c1 c2).
Proof.
  intros H1 H2 N1 N2.
  destruct a as [[]|[]| |[] m1 e1], b as [[]|[]| |[] m2 e2], c as [[]|[]| |[] m3 e3];
    rewrite ?SFcompare_finite_pos, ?SFcompare_finite_neg in *;
    cbn [SFcompare] in *;
    inversion H1; inversion H2; subst c1 c2;
    try (f_equal; first [ now apply lex_trans | now apply lex_trans_opp ]);
    repeat match goal with
           | H : context [lex ?a ?b ?c ?d] |- _ => destruct (lex a b c d)
           end;
    simpl in *; congruence.
Qed.

Lemma flt_fge (x y : float) : flt x y = true -> fge x y = false.
Proof.
  unfold flt, fge, SFltb, SFleb. rewrite (SFcompare_antisym x y).
  destruct (SFcompare x y) as [[]|]; simpl; congruence.
Qed.

Lemma flt_fgt (x y : float) : flt x y = true -> fgt x y = false.
Proof.
  unfold flt, fgt, SFltb. rewrite (SFcompare_antisym x y).
  destruct (SFcompare x y) as [[]|]; simpl; congruence.
Qed.

Lemma fgt_irrefl (x : float) : fgt x x = false.
Proof.
  destruct (fgt x x) eqn:E; [|reflexivity].
  pose proof (flt_fgt x x E). congruence.
Qed.

Lemma fgt_feq (x y : float) : fgt x y = true -> feq x y = false.
Proof.
  unfold fgt, feq, SFltb, SFeqb. rewrite (SFcompare_antisym x y).
  destruct (SFcompare x y) as [[]|]; simpl; congruence.
Qed.

Lemma fgt_trans (x y z : float) : fgt x y = true -> fgt y z = true -> fgt x z = true.
Proof.
  unfold fgt, SFltb. intros H1 H2.
  destruct (SFcompare z y) as [[]|] eqn:E1; try discriminate.
  destruct (SFcompare y x) as [[]|] eqn:E2; try discriminate.
  rewrite (SFcompare_trans _ _ _ _ _ E1 E2); simpl; congruence.
Qed.

Lemma fgt_feq_trans (x y z : float) : fgt x y = true -> feq y z = true -> fgt x z = true.
Proof.
  unfold fgt, feq, SFltb, SFeqb. intros H1 H2.
  destruct (SFcompare y x) as [[]|] eqn:E2; try discriminate.
  pose proof (SFcompare_antisym y z) as A.
  destruct (SFcompare y z) as [[]|] eqn:E1; try discriminate.
  simpl in A.
  rewrite (SFcompare_trans _ _ _ _ _ A E2); simpl; congruence.
Qed.

Lemma feq_fgt_trans (x y z : float) : feq x y = true -> fgt y z = true -> fgt x z = true.
Proof.
  unfold fgt, feq, SFltb, SFeqb. intros H1 H2.
  destruct (SFcompare z y) as [[]|] eqn:E1; try discriminate.
  pose proof (SFcompare_antisym x y) as A.
  destruct (SFcompare x y) as [[]|] eqn:E2; try discriminate.
  simpl in A.
  rewrite (SFcompare_trans _ _ _ _ _ E1 A); simpl; congruence.
Qed.

Lemma feq_trans (x y z : float) : feq x y = true -> feq y z = true -> feq x z = true.
Proof.
  unfold feq, SFeqb. intros H1 H2.
  destruct (SFcompare x y) as [[]|] eqn:E1; try discriminate.
  destruct (SFcompare y z) as [[]|] eqn:E2; try discriminate.
  rewrite (SFcompare_trans _ _ _ _ _ E1 E2); simpl; congruence.
Qed.

(** *** Strings *)

Lemma ascii_compare_refl (c : ascii) : Ascii.compare c c = Eq.
Proof. apply N.compare_refl. Qed.

Lemma ascii_compare_gt_trans (a b c : ascii) :
  Ascii.compare a b = Gt -> Ascii.compare b c = Gt -> Ascii.compare a c = Gt.
Proof. unfold Ascii.compare. rewrite !N.compare_gt_iff. lia. Qed.

Lemma compare_gt_trans (s1 : str) :
  forall s2 s3 : str,
    String.compare s1 s2 = Gt -> String.compare s2 s3 = Gt -> String.compare s1 s3 = Gt.
Proof.
  induction s1 as [|a s1 IH]; intros [|b s2] [|c s3]; simpl;
    try (intros; congruence).
  destruct (Ascii.compare a b) eqn:Eab; try (intros; discriminate);
    destruct (Ascii.compare b c) eqn:Ebc; try (intros; discriminate); intros H1 H2.
  - apply Ascii.compare_eq_iff in Eab, Ebc. subst.
    rewrite ascii_compare_refl. eauto.
  - apply Ascii.compare_eq_iff in Eab. subst. now rewrite Ebc.
  - apply Ascii.compare_eq_iff in Ebc. subst. now rewrite Eab.
  - now rewrite (ascii_compare_gt_trans _ _ _ Eab Ebc).
Qed.

Lemma str_gt_trans (s1 s2 s3 : str) :
  str_gt s1 s2 = true -> str_gt s2 s3 = true -> str_gt s1 s3 = true.
Proof.
  unfold str_gt. intros H1 H2.
  destruct (String.compare s1 s2) eqn:E1; try discriminate.
  destruct (String.compare s2 s3) eqn:E2; try discriminate.
  now rewrite (compare_gt_trans _ _ _ E1 E2).
Qed.

Lemma str_gt_neq (s1 s2 : str) : str_gt s1 s2 = true -> String.eqb s1 s2 = false.
Proof.
  unfold str_gt. intros H. apply String.eqb_neq. intros ->.
  pose proof (String.compare_antisym s2 s2) as A.
  destruct (String.compare s2 s2); discriminate.
Qed.

(** *** Score tuples *)

Lemma tuple_gt_irrefl (t : float * str) : tuple_gt t t = false.
Proof.
  destruct t as [s x]. unfold tuple_gt.
  rewrite fgt_irrefl, String.eqb_refl. now destruct (feq s s).
Qed.

Lemma tuple_gt_trans (t1 t2 t3 : float * str) :
  tuple_gt t1 t2 = true -> tuple_gt t2 t3 = true -> tuple_gt t1 t3 = true.
Proof.
  destruct t1 as [s1 x1], t2 as [s2 x2], t3 as [s3 x3]. unfold tuple_gt.
  destruct (feq s1 s2) eqn:E12; simpl;
    destruct (feq s2 s3) eqn:E23; simpl.
  - rewrite (feq_trans _ _ _ E12 E23). simpl.
    destruct (String.eqb x1 x2); simpl; try discriminate.
    destruct (String.eqb x2 x3); simpl; try discriminate.
    intros H1 H2. pose proof (str_gt_trans _ _ _ H1 H2) as H.
    now rewrite (str_gt_neq _ _ H).
  - intros _ H. pose proof (feq_fgt_trans _ _ _ E12 H) as G.
    now rewrite (fgt_feq _ _ G).
  - intros H _. pose proof (fgt_feq_trans _ _ _ H E23) as G.
    now rewrite (fgt_feq _ _ G).
  - intros H1 H2. pose proof (fgt_trans _ _ _ H1 H2) as G.
    now rewrite (fgt_feq _ _ G).
Qed.

Lemma feq_fgt (x y : float) : feq x y = true -> fgt x y = false.
Proof.
  unfold fgt, feq, SFltb, SFeqb. rewrite (SFcompare_antisym x y).
  destruct (SFcompare x y) as [[]|]; simpl; congruence.
Qed.

Lemma str_gt_irrefl (s : str) : str_gt s s = false.
Proof.
  destruct (str_gt s s) eqn:E; [|reflexivity].
  apply str_gt_neq in E. now rewrite String.eqb_refl in E.
Qed.

(** What it means that one score tuple does not exceed another. *)
Lemma tuple_gt_false_score (s1 s2 : float) (x1 x2 : str) :
  tuple_gt (s1, x1) (s2, x2) = false -> fgt s1 s2 = false.
Proof.
  unfold tuple_gt. destruct (feq s1 s2) eqn:E; simpl; [|trivial].
  intros _. now apply feq_fgt.
Qed.

Lemma tuple_gt_false_str (s1 s2 : float) (x1 x2 : str) :
  tuple_gt (s1, x1) (s2, x2) = false -> feq s1 s2 = true -> str_gt x1 x2 = false.
Proof.
  unfold tuple_gt. intros H E. rewrite E in H. simpl in H.
  destruct (String.eqb_spec x1 x2) as [->|N]; [apply str_gt_irrefl | exact H].
Qed.

(** *** [max] *)

Section Max.
Context {A : Type} (gt : A -> A -> bool).
Hypothesis gt_irrefl : forall x, gt x x = false.
Hypothesis gt_trans : forall x y z, gt x y = true -> gt y z = true -> gt x z = true.

Lemma max_from_In (l : list A) : forall m, In (max_from gt m l) (m :: l).
Proof.
  induction l as [|item l IH]; intros m; simpl.
  - now left.
  - destruct (IH (if gt item m then item else m)) as [H|H].
    + destruct (gt item m); rewrite <- H; auto.
    + auto.
Qed.

Lemma max_from_seen (l : list A) :
  forall (m : A) (seen : list A),
    (forall y, In y seen -> gt y m = false) ->
    forall y, In y (seen ++ l) -> gt y (max_from gt m l) = false.
Proof.
  induction l as [|item l IH]; intros m seen Hseen y Hy; simpl.
  - rewrite app_nil_r in Hy. now apply Hseen.
  - apply (IH _ (seen ++ [item])).
    + intros z Hz. apply in_app_or in Hz. destruct Hz as [Hz|[<-|[]]].
      * destruct (gt item m) eqn:E; [|now apply Hseen].
        destruct (gt z item) eqn:G; [|reflexivity].
        rewrite <- (Hseen z Hz). symmetry. now apply (gt_trans _ item).
      * destruct (gt item m) eqn:E; [apply gt_irrefl | assumption].
    + rewrite <- app_assoc. exact Hy.
Qed.

Lemma max_from_upper (l : list A) (m y : A) :
  In y (m :: l) -> gt y (max_from gt m l) = false.
Proof.
  intros Hy. apply (max_from_seen l m [m]).
  - intros z [<-|[]]. apply gt_irrefl.
  - exact Hy.
Qed.
End Max.

End OrderFacts.
Import OrderFacts.

(* ================================================================== *)
(** ** The loops of [SequenceMatcher] run to their end

  The three recursions of the model that count down a natural number
  ([extend_left], [extend_right], [blocks]) never stop because the
  number is used up: a larger one gives the same result. *)

Module LoopFacts.

Import Difflib.

Lemma range_bounds (lo hi i : Z) : In i (range lo hi) -> lo <= i < hi.
Proof.
  unfold range. rewrite in_map_iff. intros (k & <- & Hk).
  apply in_seq in Hk. lia.
Qed.

Lemma extend_left_enough (junk : bool) (a b : sequence) (alo blo : Z) (n : nat) :
  forall best : match_t,
    (left_room alo best <= n)%nat ->
    extend_left junk n a b alo blo best
    = extend_left junk (left_room alo best) a b alo blo best.
Proof.
  induction n as [|n IH]; intros [[besti bestj] bestsize] Hn.
  - replace (left_room alo (besti, bestj, bestsize)) with O by lia. reflexivity.
  - cbn [extend_left].
    destruct (alo <? besti) eqn:G.
    + apply Z.ltb_lt in G.
      assert (left_room alo (besti, bestj, bestsize)
              = S (left_room alo (besti - 1, bestj - 1, bestsize + 1))) as E
          by (unfold left_room; lia).
      rewrite E. cbn [extend_left]. apply Z.ltb_lt in G. rewrite G.
      destruct (_ && _ && _ && _); [|reflexivity].
      apply IH. lia.
    + cbn [andb].
      destruct (left_room alo (besti, bestj, bestsize)); [reflexivity|].
      cbn [extend_left]. now rewrite G.
Qed.

Lemma extend_right_enough (junk : bool) (a b : sequence) (ahi bhi : Z) (n : nat) :
  forall best : match_t,
    (right_room ahi best <= n)%nat ->
    extend_right junk n a b ahi bhi best
    = extend_right junk (right_room ahi best) a b ahi bhi best.
Proof.
  induction n as [|n IH]; intros [[besti bestj] bestsize] Hn.
  - replace (right_room ahi (besti, bestj, bestsize)) with O by lia. reflexivity.
  - cbn [extend_right].
    destruct (besti + bestsize <? ahi) eqn:G.
    + apply Z.ltb_lt in G.
      assert (right_room ahi (besti, bestj, bestsize)
              = S (right_room ahi (besti, bestj, bestsize + 1))) as E
          by (unfold right_room; lia).
      rewrite E. cbn [extend_right]. apply Z.ltb_lt in G. rewrite G.
      destruct (_ && _ && _ && _); [|reflexivity].
      apply IH. unfold right_room in *. lia.
    + cbn [andb].
      destruct (right_room ahi (besti, bestj, bestsize)); [reflexivity|].
      cbn [extend_right]. now rewrite G.
Qed.

Lemma j2len_get_nonneg (j2len : list (Z * Z)) (j : Z) :
  nonneg j2len -> 0 <= j2len_get j2len j 0.
Proof.
  intros H. unfold j2len_get.
  destruct (find _ j2len) as [kv|] eqn:F; [|lia].
  apply find_some in F. destruct F as [F _].
  unfold nonneg in H. rewrite Forall_forall in H. now apply H.
Qed.

Lemma scan_row_bounds (alo ahi i blo bhi : Z) (j2len : list (Z * Z)) :
  alo <= i < ahi -> nonneg j2len ->
  forall (js : list Z) (newj2len : list (Z * Z)) (best : match_t),
    nonneg newj2len -> in_bounds alo ahi best ->
    nonneg (fst (scan_row i blo bhi js j2len newj2len best))
    /\ in_bounds alo ahi (snd (scan_row i blo bhi js j2len newj2len best)).
Proof.
  intros Hi Hj. induction js as [|j js IH]; intros newj2len best Hn Hb;
    cbn [scan_row]; [now split|].
  destruct (j <? blo); [now apply IH|].
  destruct (bhi <=? j); [now split|].
  pose proof (j2len_get_nonneg j2len (j - 1) Hj) as Hk.
  destruct best as [[besti bestj] bestsize].
  apply IH.
  - constructor; [simpl; lia | assumption].
  - destruct (Z.ltb_spec bestsize (j2len_get j2len (j - 1) 0 + 1)); [|assumption].
    unfold in_bounds. lia.
Qed.

Lemma scan_bounds (a : sequence) (b2j : b2j_t) (alo ahi blo bhi : Z) :
  forall (rng : list Z) (j2len : list (Z * Z)) (best : match_t),
    (forall i, In i rng -> alo <= i < ahi) ->
    nonneg j2len -> in_bounds alo ahi best ->
    in_bounds alo ahi (scan a b2j blo bhi rng j2len best).
Proof.
  induction rng as [|i rng IH]; intros j2len best Hr Hj Hb; cbn [scan];
    [assumption|].
  pose proof (scan_row_bounds alo ahi i blo bhi j2len (Hr i (or_introl eq_refl)) Hj
                              (b2j_get b2j (item a i)) [] best (Forall_nil _) Hb)
    as [H1 H2].
  destruct (scan_row i blo bhi (b2j_get b2j (item a i)) j2len [] best)
    as [newj2len best'].
  apply IH; [intros k Hk; apply Hr; now right | exact H1 | exact H2].
Qed.

Lemma extend_left_bounds (junk : bool) (a b : sequence) (alo ahi blo : Z) (n : nat) :
  forall best, in_bounds alo ahi best ->
               in_bounds alo ahi (extend_left junk n a b alo blo best).
Proof.
  induction n as [|n IH]; intros [[besti bestj] bestsize] Hb; cbn [extend_left];
    [assumption|].
  destruct (alo <? besti) eqn:G; [|assumption].
  destruct (_ && _ && _ && _); [|assumption].
  apply IH. apply Z.ltb_lt in G. unfold in_bounds in *. lia.
Qed.

Lemma extend_right_bounds (junk : bool) (a b : sequence) (alo ahi bhi : Z) (n : nat) :
  forall best, in_bounds alo ahi best ->
               in_bounds alo ahi (extend_right junk n a b ahi bhi best).
Proof.
  induction n as [|n IH]; intros [[besti bestj] bestsize] Hb; cbn [extend_right];
    [assumption|].
  destruct (besti + bestsize <? ahi) eqn:G; [|assumption].
  destruct (_ && _ && _ && _); [|assumption].
  apply IH. apply Z.ltb_lt in G. unfold in_bounds in *. lia.
Qed.

Lemma find_longest_match_bounds (a b : sequence) (b2j : b2j_t) (alo ahi blo bhi : Z) :
  in_bounds alo ahi (find_longest_match a b b2j alo ahi blo bhi).
Proof.
  unfold find_longest_match.
  apply extend_right_bounds, extend_left_bounds, extend_right_bounds,
        extend_left_bounds, scan_bounds.
  - apply range_bounds.
  - constructor.
  - unfold in_bounds. lia.
Qed.

(** The depth [blocks] is given exceeds the length of the range. *)
Lemma blocks_enough (a b : sequence) (b2j : b2j_t) (d1 : nat) :
  forall (d2 : nat) (alo ahi blo bhi : Z),
    ahi - alo < Z.of_nat d1 -> ahi - alo < Z.of_nat d2 ->
    blocks d1 a b b2j alo ahi blo bhi = blocks d2 a b b2j alo ahi blo bhi.
Proof.
  induction d1 as [|d1 IH]; intros d2 alo ahi blo bhi H1 H2.
  - destruct d2 as [|d2]; [reflexivity|]. cbn [blocks].
    pose proof (find_longest_match_bounds a b b2j alo ahi blo bhi) as B.
    destruct (find_longest_match a b b2j alo ahi blo bhi) as [[i j] k].
    destruct (Z.eqb_spec k 0); [reflexivity|].
    unfold in_bounds in B. lia.
  - destruct d2 as [|d2].
    + cbn [blocks].
      pose proof (find_longest_match_bounds a b b2j alo ahi blo bhi) as B.
      destruct (find_longest_match a b b2j alo ahi blo bhi) as [[i j] k].
      destruct (Z.eqb_spec k 0); [reflexivity|].
      unfold in_bounds in B. lia.
    + cbn [blocks].
      pose proof (find_longest_match_bounds a b b2j alo ahi blo bhi) as B.
      destruct (find_longest_match a b b2j alo ahi blo bhi) as [[i j] k].
      destruct (Z.eqb_spec k 0); [reflexivity|].
      unfold in_bounds in B.
      f_equal. f_equal.
      * destruct (_ && _); [|reflexivity]. apply IH; lia.
      * destruct (_ && _); [|reflexivity]. apply IH; lia.
Qed.

Lemma get_matching_blocks_depth (a b : sequence) (b2j : b2j_t) (d : nat) :
  (List.length a < d)%nat ->
  blocks d a b b2j 0 (slen a) 0 (slen b)
  = blocks (S (List.length a)) a b b2j 0 (slen a) 0 (slen b).
Proof. intros H. apply blocks_enough; unfold slen; lia. Qed.

End LoopFacts.
Import LoopFacts.

(* ================================================================== *)
(** ** What each branch of [suggest] computes *)

Module SuggestFacts.

Import Difflib.

Lemma dict_get_In {V} (d : list (str * V)) (k : str) (v : V) :
  dict_get d k = Some v -> In v (map snd d).
Proof.
  induction d as [|[k' v'] d IH]; simpl; [discriminate|].
  destruct (String.eqb k' k); [intros [= ->]; now left | auto].
Qed.

Lemma mem_In (w : str) (l : list str) : mem w l = true -> In w l.
Proof.
  unfold mem. rewrite existsb_exists.
  intros (x & Hx & E). apply String.eqb_eq in E. now subst.
Qed.

Lemma In_mem (w : str) (l : list str) : In w l -> mem w l = true.
Proof.
  unfold mem. rewrite existsb_exists.
  intros H. exists w. split; [assumption | apply String.eqb_refl].
Qed.

Lemma hd_filter_find {A} (p : A -> bool) (dflt : A) (l : list A) :
  hd dflt (filter p l) = match find p l with Some d => d | None => dflt end.
Proof.
  induction l as [|x l IH]; simpl; [reflexivity|].
  now destruct (p x).
Qed.

(** [levenshtein] returns every domain that beats the cutoff, in the order
    of the list: its [len(matches) <= n] never fails. *)
Lemma levenshtein_all (word : str) (wl : list str) (n : option Z) (c : option float) :
  0 <= arg 1 n ->
  levenshtein word wl n c
  = Ok (filter (fun d => fgt (Levenshtein.ratio word d) (arg (decimal 80 100) c)) wl).
Proof.
  intros Hn. unfold levenshtein, index. simpl. f_equal.
  apply filter_ext. intros d.
  replace (llen [] <=? arg 1 n) with true; [apply andb_true_r|].
  symmetry. apply Z.leb_le. exact Hn.
Qed.

(** [spelling] never gets past its first call of [probability]. *)
Lemma spelling_raises (word : str) (wl : list str) (n : option Z) (c : option float) :
  spelling word wl n c = Raise TypeError.
Proof.
  unfold spelling, correction, candidates, known. simpl.
  rewrite String.eqb_refl. reflexivity.
Qed.

(** The branches of [suggest], for a word that is no key of the table. *)
Lemma suggest_unfold (word : str) (cutoff : option float)
      (override : option (list str)) (algo : option str) :
  suggest word cutoff override algo =
  match dict_get LOOKUP_TABLE word with
  | Some v => Ok v
  | None =>
      let c := arg (decimal 77 100) cutoff in
      let a := arg "difflib" algo in
      let wl := word_list override in
      if String.eqb a "levenshtein" then
        Ok (hd word (filter (fun d => fgt (Levenshtein.ratio word d) c) wl))
      else if String.eqb a "spellr" then Raise TypeError
      else if valid_cutoff c then Ok (best_match word wl c)
      else Raise ValueError
  end.
Proof.
  unfold suggest. destruct (dict_get LOOKUP_TABLE word); [reflexivity|].
  cbv zeta.
  destruct (String.eqb (arg "difflib" algo) "levenshtein").
  - rewrite levenshtein_all by (simpl; lia). simpl.
    now destruct (filter _ _).
  - destruct (String.eqb (arg "difflib" algo) "spellr").
    + now rewrite spelling_raises.
    + unfold get_close_matches, best_match. simpl.
      destruct (valid_cutoff _); simpl; [|reflexivity].
      now destruct (scored _ _ _).
Qed.

Lemma in_scored (word : str) (l : list str) (c : float) (s : float) (x : str) :
  In (s, x) (scored word l c)
  <-> In x l /\ close_enough word x c = true /\ s = similarity word x.
Proof.
  unfold scored. rewrite in_flat_map. split.
  - intros (y & Hy & H). destruct (close_enough word y c) eqn:E; [|destruct H].
    destruct H as [[= <- <-]|[]]. auto.
  - intros (Hx & E & ->). exists x. rewrite E. split; [assumption|now left].
Qed.

Lemma close_enough_score (word x : str) (c : float) :
  close_enough word x c = true -> fge (similarity word x) c = true.
Proof.
  unfold close_enough.
  destruct (fge (real_quick_ratio _ _) c); [|discriminate].
  destruct (fge (quick_ratio _ _) c); [trivial|discriminate].
Qed.

Lemma scored_nil (word : str) (l : list str) (c : float) :
  scored word l c = [] <-> (forall x, In x l -> close_enough word x c = false).
Proof.
  split.
  - intros H x Hx. destruct (close_enough word x c) eqn:E; [|reflexivity].
    assert (In (similarity word x, x) (scored word l c)) as G
        by (apply in_scored; auto).
    rewrite H in G. destruct G.
  - intros H. destruct (scored word l c) as [|[s x] r] eqn:E; [reflexivity|].
    assert (In (s, x) (scored word l c)) as G by (rewrite E; now left).
    apply in_scored in G. destruct G as (Hx & G & _).
    rewrite (H x Hx) in G. discriminate.
Qed.

(** [best_match] is the word itself when no domain passes the test, and
    otherwise a domain that passes it and whose pair (score, domain) no
    other such pair exceeds. *)
Lemma best_match_spec (word : str) (l : list str) (c : float) :
  ((forall x, In x l -> close_enough word x c = false) /\ best_match word l c = word)
  \/ (In (best_match word l c) l
      /\ close_enough word (best_match word l c) c = true
      /\ forall y, In y l -> close_enough word y c = true ->
                   tuple_gt (similarity word y, y)
                            (similarity word (best_match word l c),
                             best_match word l c) = false).
Proof.
  unfold best_match.
  destruct (scored word l c) as [|head rest] eqn:E.
  - left. split; [now apply scored_nil | reflexivity].
  - right.
    pose proof (max_from_In tuple_gt rest head) as Hin.
    rewrite <- E in Hin.
    destruct (max_from tuple_gt head rest) as [s x] eqn:M.
    apply in_scored in Hin. destruct Hin as (Hx & Hc & ->). cbn [snd].
    repeat split; try assumption.
    intros y Hy Hyc. rewrite <- M.
    apply (max_from_upper tuple_gt tuple_gt_irrefl tuple_gt_trans).
    rewrite <- E. apply in_scored. auto.
Qed.

(** Where the value [suggest] returns comes from. *)
Lemma suggest_origin (word : str) (cutoff : option float)
      (override : option (list str)) (algo : option str) (v : str) :
  suggest word cutoff override algo = Ok v ->
  In v (word_list override) \/ In v (map snd LOOKUP_TABLE) \/ v = word.
Proof.
  rewrite suggest_unfold.
  destruct (dict_get LOOKUP_TABLE word) as [v'|] eqn:K.
  - intros [= <-]. right; left. now apply (dict_get_In _ word).
  - cbv zeta.
    destruct (String.eqb _ "levenshtein").
    + intros [= <-]. rewrite hd_filter_find.
      destruct (find _ _) eqn:F; [|now right; right].
      left. now apply find_some in F.
    + destruct (String.eqb _ "spellr"); [discriminate|].
      destruct (valid_cutoff _); [|discriminate].
      intros [= <-].
      destruct (best_match_spec word (word_list override)
                                (arg (decimal 77 100) cutoff)) as [[_ ->]|[H _]];
        auto.
Qed.

(** The arguments on which [suggest] returns. *)
Lemma suggest_returns (word : str) (cutoff : option float)
      (override : option (list str)) (algo : option str) :
  (exists v, dict_get LOOKUP_TABLE word = Some v)
  \/ arg "difflib" algo = "levenshtein"
  \/ (block_matching_chosen algo
      /\ valid_cutoff (arg (decimal 77 100) cutoff) = true) ->
  exists s, suggest word cutoff override algo = Ok s.
Proof.
  rewrite suggest_unfold. intros H.
  destruct (dict_get LOOKUP_TABLE word) as [v|] eqn:K; [now exists v|].
  cbv zeta.
  destruct H as [[v Hv]|[E|((N1 & N2) & V)]]; [congruence| |].
  - rewrite E, String.eqb_refl. eauto.
  - apply String.eqb_neq in N1, N2. rewrite N1, N2, V. eauto.
Qed.

End SuggestFacts.
Import SuggestFacts.

(* ================================================================== *)
(** ** The members of the default list under the default matcher *)

Module MemberFacts.

Import Difflib.

Lemma similarity_matched (word x : str) :
  similarity word x
  = _calculate_ratio (matched word x) (slen (chars x) + slen (chars word)).
Proof. reflexivity. Qed.

Lemma same_float_eq (x y : float) : same_float x y = true -> x = y.
Proof.
  destruct x as [s1|s1| |s1 m1 e1], y as [s2|s2| |s2 m2 e2]; simpl;
    try discriminate; try reflexivity.
  - intros H. apply Bool.eqb_prop in H. now subst.
  - intros H. apply Bool.eqb_prop in H. now subst.
  - rewrite !andb_true_iff. intros [[H1 H2] H3].
    apply Bool.eqb_prop in H1. apply Pos.eqb_eq in H2. apply Z.eqb_eq in H3.
    now subst.
Qed.

Lemma in_range (lo hi x : Z) : lo <= x < hi -> In x (range lo hi).
Proof.
  intros H. unfold range. apply in_map_iff.
  exists (Z.to_nat (x - lo)). split; [lia|].
  apply in_seq. lia.
Qed.

Lemma ratio_table :
  forallb (fun L => forallb (fun m => ratio_ok m L) (range 0 40)) (range 1 80) = true.
Proof. vm_cast_no_check (eq_refl true). Qed.

Lemma ratio_below_one (m L : Z) :
  0 <= m -> 2 * m < L < 80 -> flt (_calculate_ratio m L) f1_0 = true.
Proof.
  intros Hm HL. pose proof ratio_table as T.
  rewrite forallb_forall in T. specialize (T L (in_range 1 80 L ltac:(lia))).
  rewrite forallb_forall in T. specialize (T m (in_range 0 40 m ltac:(lia))).
  unfold ratio_ok in T.
  destruct (Z.ltb_spec (2 * m) L); [assumption | lia].
Qed.

Lemma ratio_one (m : Z) : 1 <= m < 40 -> _calculate_ratio m (m + m) = f1_0.
Proof.
  intros Hm. pose proof ratio_table as T.
  rewrite forallb_forall in T. specialize (T (m + m) (in_range 1 80 (m + m) ltac:(lia))).
  rewrite forallb_forall in T. specialize (T m (in_range 0 40 m ltac:(lia))).
  unfold ratio_ok in T.
  destruct (Z.ltb_spec (2 * m) (m + m)); [lia|].
  destruct (Z.eqb_spec (2 * m) (m + m)); [|lia].
  now apply same_float_eq.
Qed.

Lemma members_win :
  forallb (wins MOST_COMMON_DOMAINS) MOST_COMMON_DOMAINS = true.
Proof. vm_cast_no_check (eq_refl true). Qed.

Lemma wins_best_match (l : list str) (D : str) (c : float) :
  wins l D = true -> In D l -> fle c f1_0 = true -> best_match D l c = D.
Proof.
  unfold wins. rewrite !andb_true_iff.
  intros [[[[[_ L1] L2] Q] M] O] HD Hc.
  apply Z.leb_le in L1. apply Z.ltb_lt in L2.
  apply Z.eqb_eq in Q, M.
  assert (close_enough D D c = true) as HDD.
  { unfold close_enough, real_quick_ratio, quick_ratio. fold (chars D).
    rewrite similarity_matched, Q, M, Z.min_id, ratio_one by lia.
    unfold fge. unfold fle in Hc. now rewrite Hc. }
  destruct (best_match_spec D l c) as [[N _]|(Hx & _ & U)].
  - rewrite (N D HD) in HDD. discriminate.
  - specialize (U D HD HDD). revert Hx U.
    generalize (best_match D l c). intros x Hx U.
    destruct (String.eqb_spec x D) as [E|E]; [assumption|exfalso].
    rewrite forallb_forall in O. specialize (O x Hx).
    apply String.eqb_neq in E. rewrite E, orb_false_l in O.
    rewrite !andb_true_iff in O. destruct O as [[O1 O2] O3].
    apply Z.leb_le in O1. apply Z.ltb_lt in O2, O3.
    rewrite !similarity_matched in U.
    rewrite M, ratio_one in U by lia.
    pose proof (ratio_below_one _ _ O1 (conj O2 O3)) as B.
    unfold tuple_gt in U.
    assert (fgt f1_0 (_calculate_ratio (matched D x)
                                       (slen (chars x) + slen (chars D))) = true) as G
        by exact B.
    rewrite (fgt_feq _ _ G), G in U. discriminate.
Qed.

End MemberFacts.
Import MemberFacts.

(* ================================================================== *)
(** ** Properties of [suggest] *)

(** *** Termination without an exception *)

(** C1, as stated, fails: with the default matcher a cutoff outside
    [0.0, 1.0], here 1.5, makes [get_close_matches] raise [ValueError],
    so [suggest("gmal.com", cutoff=1.5)] returns no string. *)
Lemma suggest_raises_outside_unit_interval :
  ~ (exists s, suggest "gmal.com" (Some (decimal 15 10)) None None = Ok s).
Proof. intros [s H]. vm_compute in H. discriminate. Qed.

(** C1, amended: for every word and every override list, [suggest] returns
    a string whenever the word is a key of the lookup table, or the
    matcher is ['levenshtein'] (any cutoff), or the matcher is the default
    one and the cutoff lies in [0.0, 1.0]. *)
Theorem suggest_returns_a_string
        (word : str) (cutoff : option float) (override : option (list str))
        (algo : option str) :
  (exists v, dict_get LOOKUP_TABLE word = Some v)
  \/ arg "difflib" algo = "levenshtein"
  \/ (block_matching_chosen algo
      /\ Difflib.valid_cutoff (arg (decimal 77 100) cutoff) = true) ->
  exists s, suggest word cutoff override algo = Ok s.
Proof. apply suggest_returns. Qed.

Lemma suggest_returns_a_string_witness :
  exists s, suggest "completelyrandomstring123" None None None = Ok s.
Proof.
  apply (suggest_returns_a_string "completelyrandomstring123" None None None).
  right; right. split; [split; discriminate | reflexivity].
Defined.

(** *** The lookup table *)

(** C2: a key of the lookup table is mapped to its value whatever the
    cutoff, the override list and the algorithm are, also where each
    matcher would raise (a cutoff out of range, ['spellr']): the table is
    consulted before any matcher is called. *)
Theorem lookup_table_short_circuit
        (K v : str) (cutoff : option float) (override : option (list str))
        (algo : option str) :
  dict_get LOOKUP_TABLE K = Some v ->
  suggest K cutoff override algo = Ok v.
Proof. intros H. rewrite suggest_unfold. now rewrite H. Qed.

Lemma lookup_table_short_circuit_witness :
  dict_get LOOKUP_TABLE "gmail" = Some "gmail.com"
  /\ suggest "gmail" (Some (decimal 15 10)) None (Some "spellr") = Ok "gmail.com".
Proof.
  split; [reflexivity|].
  apply (lookup_table_short_circuit "gmail" "gmail.com"). reflexivity.
Defined.

(** *** Where the output comes from *)

(** C3, as stated, fails: the empty word is returned as it is, so the
    output is not always a non-empty string. *)
Lemma suggest_of_the_empty_word :
  ~ (forall v, suggest EmptyString None None None = Ok v -> v <> EmptyString).
Proof.
  intros H. apply (H EmptyString); [vm_compute|]; reflexivity.
Qed.

Lemma default_domains_nonempty :
  forallb (fun d => negb (String.eqb d EmptyString)) MOST_COMMON_DOMAINS = true.
Proof. vm_compute. reflexivity. Qed.

Lemma lookup_values_nonempty :
  forallb (fun d => negb (String.eqb d EmptyString)) (map snd LOOKUP_TABLE) = true.
Proof. vm_compute. reflexivity. Qed.

(** C3, amended: with the default reference list, every value [suggest]
    returns is a member of [MOST_COMMON_DOMAINS], a value of
    [LOOKUP_TABLE] or the word itself, and it is non-empty when the word
    is; and [suggest] does return with all its defaults. *)
Theorem suggest_output_invariant (word : str) :
  (forall (cutoff : option float) (algo : option str) (v : str),
      suggest word cutoff None algo = Ok v ->
      (In v MOST_COMMON_DOMAINS \/ In v (map snd LOOKUP_TABLE) \/ v = word)
      /\ (word <> EmptyString -> v <> EmptyString))
  /\ exists v, suggest word None None None = Ok v.
Proof.
  split.
  - intros cutoff algo v H. apply suggest_origin in H. split; [exact H|].
    intros Hw ->. destruct H as [H|[H|H]]; [| |congruence].
    + pose proof default_domains_nonempty as F.
      rewrite forallb_forall in F. now specialize (F EmptyString H).
    + pose proof lookup_values_nonempty as F.
      rewrite forallb_forall in F. now specialize (F EmptyString H).
  - apply suggest_returns. right; right.
    split; [split; discriminate | reflexivity].
Qed.

Lemma suggest_output_invariant_witness :
  (In "gmail.com" MOST_COMMON_DOMAINS \/ In "gmail.com" (map snd LOOKUP_TABLE)
   \/ "gmail.com" = "gmal.com")
  /\ ("gmal.com" <> EmptyString -> "gmail.com" <> EmptyString).
Proof.
  apply (proj1 (suggest_output_invariant "gmal.com") None None "gmail.com").
  vm_compute. reflexivity.
Defined.

(** *** Members of the reference list *)

(** C4, as stated, fails for the ['levenshtein'] matcher, which returns
    the first domain of the list that beats the cutoff: for the member
    ["hotmail.com"] that is ["email.com"]. *)
Lemma levenshtein_moves_a_member :
  In "hotmail.com" MOST_COMMON_DOMAINS
  /\ suggest "hotmail.com" None None (Some "levenshtein") <> Ok "hotmail.com".
Proof.
  split.
  - apply mem_In. vm_compute. reflexivity.
  - vm_compute. discriminate.
Qed.

(** C4, amended: for every member [D] of the default reference list, the
    default matcher with a cutoff in [0.0, 1.0] returns [D]. *)
Theorem member_is_its_own_suggestion
        (D : str) (cutoff : option float) (algo : option str) :
  In D MOST_COMMON_DOMAINS ->
  block_matching_chosen algo ->
  Difflib.valid_cutoff (arg (decimal 77 100) cutoff) = true ->
  suggest D cutoff None algo = Ok D.
Proof.
  intros HD [N1 N2] V.
  pose proof members_win as W. rewrite forallb_forall in W. specialize (W D HD).
  rewrite suggest_unfold. cbv zeta.
  assert (dict_get LOOKUP_TABLE D = None) as K.
  { unfold wins in W. rewrite !andb_true_iff in W.
    destruct W as [[[[[W _] _] _] _] _].
    now destruct (dict_get LOOKUP_TABLE D). }
  rewrite K.
  apply String.eqb_neq in N1, N2. rewrite N1, N2, V. f_equal.
  apply wins_best_match; try assumption.
  unfold Difflib.valid_cutoff in V. now apply andb_true_iff in V.
Qed.

Lemma member_is_its_own_suggestion_witness :
  suggest "yahoo.com" (Some (decimal 99 100)) None None = Ok "yahoo.com".
Proof.
  apply (member_is_its_own_suggestion "yahoo.com" (Some (decimal 99 100)) None).
  - apply mem_In. vm_compute. reflexivity.
  - split; discriminate.
  - vm_compute. reflexivity.
Defined.

(** *** The default matcher *)

(** C5, as stated, fails on the tie-break: ["hotmail.xx"] scores 0.8
    against each of [hotmail.be], [hotmail.ca], ..., [hotmail.se];
    the first of them in the list is [hotmail.be], and [suggest] returns
    [hotmail.se], the greatest of them as a string. *)
Lemma ties_are_not_broken_by_position :
  Spec.block_matching "hotmail.xx" (decimal 77 100) MOST_COMMON_DOMAINS = "hotmail.be"
  /\ suggest "hotmail.xx" None None None
     <> Ok (Spec.block_matching "hotmail.xx" (decimal 77 100) MOST_COMMON_DOMAINS).
Proof. split; vm_compute; [reflexivity | discriminate]. Qed.

(** A score equal to the cutoff is accepted as well: with cutoff 0.8 the
    same word still goes to [hotmail.se]. *)
Lemma a_score_equal_to_the_cutoff_passes :
  Difflib.similarity "hotmail.xx" "hotmail.se" = decimal 8 10
  /\ suggest "hotmail.xx" (Some (decimal 8 10)) None None = Ok "hotmail.se".
Proof. split; vm_compute; reflexivity. Qed.

(** C5, amended: under the default matcher, with a cutoff in [0.0, 1.0]
    and a word that is no key of the lookup table, [suggest] returns the
    word itself when no domain of the working list passes the test of
    [get_close_matches]; otherwise it returns a domain [x] of the list that
    passes it, whose score is at least the cutoff, such that no domain that
    passes has a higher score and none with an equal score is a greater
    string. *)
Theorem block_matching_selection
        (word : str) (cutoff : option float) (override : option (list str))
        (algo : option str) :
  let c := arg (decimal 77 100) cutoff in
  let wl := word_list override in
  dict_get LOOKUP_TABLE word = None ->
  block_matching_chosen algo ->
  Difflib.valid_cutoff c = true ->
  ((forall x, In x wl -> Difflib.close_enough word x c = false)
   /\ suggest word cutoff override algo = Ok word)
  \/ (exists x,
         suggest word cutoff override algo = Ok x
         /\ In x wl
         /\ Difflib.close_enough word x c = true
         /\ fge (Difflib.similarity word x) c = true
         /\ forall y, In y wl -> Difflib.close_enough word y c = true ->
                      fgt (Difflib.similarity word y) (Difflib.similarity word x) = false
                      /\ (feq (Difflib.similarity word y) (Difflib.similarity word x) = true ->
                          str_gt y x = false)).
Proof.
  intros c wl K [N1 N2] V.
  rewrite suggest_unfold, K. cbv zeta. fold c wl.
  apply String.eqb_neq in N1, N2. rewrite N1, N2, V.
  destruct (best_match_spec word wl c) as [[N E]|(Hx & Hc & U)].
  - left. split; [exact N | now rewrite E].
  - right. exists (best_match word wl c).
    split; [reflexivity|]. split; [assumption|]. split; [assumption|].
    split; [now apply close_enough_score|].
    intros y Hy Hyc. specialize (U y Hy Hyc). split.
    + now apply tuple_gt_false_score in U.
    + intros E. now apply (tuple_gt_false_str _ _ _ _ U).
Qed.

Lemma block_matching_selection_witness :
  suggest "hotmail.xx" None None None = Ok "hotmail.xx"
  \/ exists x, suggest "hotmail.xx" None None None = Ok x
               /\ In x MOST_COMMON_DOMAINS
               /\ fge (Difflib.similarity "hotmail.xx" x) (decimal 77 100) = true.
Proof.
  destruct (block_matching_selection "hotmail.xx" None None None)
    as [[_ H]|(x & H & Hx & _ & Hs & _)].
  - reflexivity.
  - split; discriminate.
  - vm_compute. reflexivity.
  - now left.
  - right. exists x. auto.
Defined.

(** *** The edit-distance matcher *)

(** C6, as stated, fails on the default cutoff: [suggest] hands its own
    cutoff to [levenshtein], 0.77 when the caller gives none, so the 0.80
    of [levenshtein]'s signature never applies.  For ["gmal.com"] the first
    domain above 0.77 is [aol.com] (ratio 0.8), the first above 0.80 is
    [email.com]. *)
Lemma levenshtein_default_cutoff_is_not_used :
  Spec.edit_distance "gmal.com" None MOST_COMMON_DOMAINS = "email.com"
  /\ suggest "gmal.com" None None (Some "levenshtein")
     <> Ok (Spec.edit_distance "gmal.com" None MOST_COMMON_DOMAINS).
Proof. split; vm_compute; [reflexivity | discriminate]. Qed.

(** The list [levenshtein] builds is not cut at one domain either. *)
Lemma levenshtein_collects_every_match :
  levenshtein "gmal.com" MOST_COMMON_DOMAINS None (Some (decimal 77 100))
  = Ok ["aol.com"; "email.com"; "gmail.com"; "gmx.com"; "mac.com"; "mail.com";
        "y7mail.com"; "ymail.com"].
Proof. vm_compute. reflexivity. Qed.

(** C6, amended: under the ['levenshtein'] matcher, for a word that is no
    key of the lookup table, [suggest] returns the first domain of the
    working list, in list order, whose ratio exceeds the cutoff, and the
    word itself when there is none; the cutoff is the one of [suggest],
    0.77 when the caller gives none. *)
Theorem edit_distance_selection
        (word : str) (cutoff : option float) (override : option (list str)) :
  dict_get LOOKUP_TABLE word = None ->
  suggest word cutoff override (Some "levenshtein")
  = Ok match find (fun d => fgt (Levenshtein.ratio word d) (arg (decimal 77 100) cutoff))
                  (word_list override) with
       | Some d => d
       | None => word
       end.
Proof.
  intros K. rewrite suggest_unfold, K. cbv zeta. simpl arg.
  rewrite String.eqb_refl. now rewrite hd_filter_find.
Qed.

Lemma edit_distance_selection_witness :
  dict_get LOOKUP_TABLE "gmal.com" = None
  /\ suggest "gmal.com" None None (Some "levenshtein") = Ok "aol.com".
Proof.
  split; [reflexivity|].
  exact (edit_distance_selection "gmal.com" None None eq_refl).
Defined.

(** *** The frequency matcher *)

(** [known] hands back the whole of a list or a set: each [w] is looked up
    in [words] itself. *)
Lemma known_is_reflexive (l : list str) :
  known (a_set l) = set_of l /\ known (a_list l) = set_of l.
Proof.
  assert (filter (fun w => mem w l) l = l) as F.
  { apply forallb_filter_id. apply forallb_forall. intros w Hw. now apply In_mem. }
  unfold known. now rewrite F.
Qed.

(** C7 does not hold of the source: [known(edits1("a"))] keeps ["b"],
    which the frequency table of the default list does not contain. *)
Lemma known_keeps_an_unknown_edit :
  In "b" (known (a_set (edits1 "a")))
  /\ dict_get (Counter MOST_COMMON_DOMAINS) "b" = None.
Proof.
  split.
  - apply mem_In. vm_compute. reflexivity.
  - vm_compute. reflexivity.
Qed.

(** *** The override list *)

(** C8, as stated, fails for the empty list: it is false like [None], the
    default list is used, and ["gmal.com"] is corrected although the list
    handed over holds no domain. *)
Lemma empty_override_is_ignored :
  word_list (Some []) <> []
  /\ suggest "gmal.com" None (Some []) None = Ok "gmail.com".
Proof. split; [discriminate | vm_compute; reflexivity]. Qed.

(** C8, amended: a non-empty override list is the working list.  For a
    word that is no key of the lookup table, [suggest] then returns what
    the chosen matcher, [levenshtein] or [get_close_matches], yields when
    it is run on the override list itself, with the fallback to the word:
    the default list takes no part.  So a domain of the override list that
    passes the matcher's test forces a suggestion drawn from the override
    list, and every value returned is a member of the override list, a
    value of the lookup table or the word. *)
Theorem override_replaces_the_default_list (l : list str) :
  l <> [] ->
  word_list (Some l) = l
  /\ (forall (word : str) (cutoff : option float) (algo : option str),
         dict_get LOOKUP_TABLE word = None ->
         (arg "difflib" algo = "levenshtein" ->
          suggest word cutoff (Some l) algo
          = match levenshtein word l None (Some (arg (decimal 77 100) cutoff)) with
            | Ok m => Ok (hd word m)
            | Raise e => Raise e
            end)
         /\ (block_matching_chosen algo ->
             suggest word cutoff (Some l) algo
             = match Difflib.get_close_matches word l 1 (arg (decimal 77 100) cutoff) with
               | Ok m => Ok (hd word m)
               | Raise e => Raise e
               end))
  /\ (forall (word : str) (cutoff : option float) (algo : option str) (d : str),
         dict_get LOOKUP_TABLE word = None ->
         In d l ->
         (arg "difflib" algo = "levenshtein" ->
          fgt (Levenshtein.ratio word d) (arg (decimal 77 100) cutoff) = true ->
          exists x, suggest word cutoff (Some l) algo = Ok x
                    /\ In x l
                    /\ fgt (Levenshtein.ratio word x) (arg (decimal 77 100) cutoff) = true)
         /\ (block_matching_chosen algo ->
             Difflib.valid_cutoff (arg (decimal 77 100) cutoff) = true ->
             Difflib.close_enough word d (arg (decimal 77 100) cutoff) = true ->
             exists x, suggest word cutoff (Some l) algo = Ok x
                       /\ In x l
                       /\ Difflib.close_enough word x (arg (decimal 77 100) cutoff) = true))
  /\ (forall (word : str) (cutoff : option float) (algo : option str) (v : str),
         suggest word cutoff (Some l) algo = Ok v ->
         In v l \/ In v (map snd LOOKUP_TABLE) \/ v = word).
Proof.
  intros Hl.
  assert (word_list (Some l) = l) as E by (destruct l; [congruence | reflexivity]).
  split; [exact E|]. split; [|split].
  - intros word cutoff algo K. unfold suggest. cbv zeta. rewrite K, E. split.
    + intros A. rewrite A, String.eqb_refl.
      destruct (levenshtein word l None _) as [[|d m]|e]; reflexivity.
    + intros [N1 N2]. apply String.eqb_neq in N1, N2. rewrite N1, N2.
      destruct (Difflib.get_close_matches word l 1 _) as [[|d m]|e]; reflexivity.
  - intros word cutoff algo d K Hd. rewrite suggest_unfold, K, E. cbv zeta. split.
    + intros A G. rewrite A, String.eqb_refl, hd_filter_find.
      destruct (find _ l) as [x|] eqn:F.
      * apply find_some in F. destruct F as [Hx Gx]. exists x. auto.
      * apply (find_none _ _ F) in Hd. congruence.
    + intros [N1 N2] V G. apply String.eqb_neq in N1, N2. rewrite N1, N2, V.
      destruct (best_match_spec word l (arg (decimal 77 100) cutoff))
        as [[N _]|(Hx & Hc & _)].
      * rewrite (N d Hd) in G. discriminate.
      * eexists. split; [reflexivity|]. auto.
  - intros word cutoff algo v H. apply suggest_origin in H. now rewrite E in H.
Qed.

Lemma override_replaces_the_default_list_witness :
  word_list (Some ["gmx.com"; "gmail.com"]) = ["gmx.com"; "gmail.com"]
  /\ suggest "gmal.com" None (Some ["gmx.com"; "gmail.com"]) None = Ok "gmail.com"
  /\ suggest "yahuo.com" None (Some ["gmx.com"; "gmail.com"]) None = Ok "yahuo.com".
Proof.
  destruct (override_replaces_the_default_list ["gmx.com"; "gmail.com"])
    as (E & S & _); [discriminate|].
  split; [exact E|]. split.
  - etransitivity;
      [apply (proj2 (S "gmal.com" None None eq_refl)); split; discriminate|].
    vm_compute. reflexivity.
  - etransitivity;
      [apply (proj2 (S "yahuo.com" None None eq_refl)); split; discriminate|].
    vm_compute. reflexivity.
Defined.

(** *** The cutoff *)

(** C9, as stated, fails under the default matcher for a cutoff above 1.0:
    every score of ["gmal.com"] is below 1.5, and [suggest] raises
    [ValueError] instead of returning the word. *)
Lemma no_fallback_above_one :
  dict_get LOOKUP_TABLE "gmal.com" = None
  /\ forallb (fun d => flt (score None "gmal.com" d) (decimal 15 10))
             MOST_COMMON_DOMAINS = true
  /\ suggest "gmal.com" (Some (decimal 15 10)) None None <> Ok "gmal.com".
Proof.
  split; [reflexivity|]. split; [vm_compute; reflexivity|].
  vm_compute. discriminate.
Qed.

(** C9, amended: for a word that is no key of the lookup table, under the
    ['levenshtein'] matcher with any cutoff, and under the default matcher
    with a cutoff in [0.0, 1.0], [suggest] returns the word when the score
    of every domain of the working list is below the cutoff. *)
Theorem no_match_fallback
        (word : str) (cutoff : option float) (override : option (list str))
        (algo : option str) :
  let c := arg (decimal 77 100) cutoff in
  dict_get LOOKUP_TABLE word = None ->
  arg "difflib" algo = "levenshtein"
  \/ (block_matching_chosen algo /\ Difflib.valid_cutoff c = true) ->
  forallb (fun d => flt (score algo word d) c) (word_list override) = true ->
  suggest word cutoff override algo = Ok word.
Proof.
  intros c K A B. rewrite forallb_forall in B. unfold score in B.
  rewrite suggest_unfold, K. cbv zeta. fold c.
  destruct A as [A|[[N1 N2] V]].
  - rewrite A, String.eqb_refl in *. f_equal.
    rewrite hd_filter_find.
    destruct (find _ _) as [d|] eqn:F; [|reflexivity].
    apply find_some in F. destruct F as [Hd F].
    rewrite (flt_fgt _ _ (B d Hd)) in F. discriminate.
  - apply String.eqb_neq in N1, N2. rewrite N1 in B. rewrite N1, N2, V. f_equal.
    destruct (best_match_spec word (word_list override) c) as [[_ E]|(Hx & Hc & _)];
      [exact E|].
    apply close_enough_score in Hc.
    rewrite (flt_fge _ _ (B _ Hx)) in Hc. discriminate.
Qed.

Lemma no_match_fallback_witness :
  suggest "hotmail.xx" (Some (decimal 99 100)) None None = Ok "hotmail.xx".
Proof.
  apply (no_match_fallback "hotmail.xx" (Some (decimal 99 100)) None None).
  - reflexivity.
  - right. split; [split; discriminate | vm_compute; reflexivity].
  - vm_compute. reflexivity.
Defined.

(** *** The first scenario of the specification *)

(** C10: with all its defaults, [suggest("gmal.com")] is ["gmail.com"]. *)
Theorem suggest_gmal_com : suggest "gmal.com" None None None = Ok "gmail.com".
Proof. vm_compute. reflexivity. Qed.

(* ================================================================== *)
(** ** Strings, sets and counters *)

Module DataFacts.

Lemma length_app_string (s1 s2 : str) :
  String.length (s1 ++ s2)%string = (String.length s1 + String.length s2)%nat.
Proof. induction s1 as [|c s1 IH]; simpl; [reflexivity | now rewrite IH]. Qed.

Lemma length_substring (s : str) :
  forall n m : nat,
    String.length (String.substring n m s) = Nat.min m (String.length s - n).
Proof.
  induction s as [|c s IH]; intros [|n] [|m]; simpl; try reflexivity;
    rewrite ?IH; simpl; try lia.
Qed.

Lemma substring_nothing (s : str) : forall n : nat, String.substring n 0 s = EmptyString.
Proof. induction s as [|c s IH]; intros [|n]; simpl; auto. Qed.

Lemma substring_whole (s : str) : String.substring 0 (String.length s) s = s.
Proof. induction s as [|c s IH]; simpl; [reflexivity | now rewrite IH]. Qed.

Lemma slice_to_app (L R : str) : slice_to (L ++ R)%string (String.length L) = L.
Proof.
  unfold slice_to. induction L as [|c L IH]; simpl.
  - now destruct R.
  - now rewrite IH.
Qed.

Lemma slice_from_app (L R : str) : slice_from (L ++ R)%string (String.length L) = R.
Proof.
  unfold slice_from. rewrite length_app_string.
  replace (String.length L + String.length R - String.length L)%nat
    with (String.length R) by lia.
  induction L as [|c L IH]; simpl; [apply substring_whole | exact IH].
Qed.

Lemma slice_from_tail (c : ascii) (R : str) : slice_from (String c R) 1 = R.
Proof. exact (slice_from_app (String c EmptyString) R). Qed.

Lemma slice_from_two (a b : ascii) (R : str) :
  slice_from (String a (String b R)) 2 = R.
Proof. exact (slice_from_app (String a (String b EmptyString)) R). Qed.

(** *** [set(l)] *)

Lemma mem_app_one (w x : str) (s : list str) :
  In x (set_add s w) <-> In x s \/ x = w.
Proof.
  unfold set_add. destruct (mem w s) eqn:E.
  - split; [auto|]. intros [H| ->]; [assumption | now apply mem_In].
  - rewrite in_app_iff. simpl. intuition.
Qed.

Lemma fold_set_add_In (l : list str) :
  forall (acc : list str) (x : str),
    In x (fold_left set_add l acc) <-> In x acc \/ In x l.
Proof.
  induction l as [|w l IH]; intros acc x; simpl; [intuition|].
  rewrite IH, mem_app_one. intuition.
Qed.

Lemma set_of_In (l : list str) (x : str) : In x (set_of l) <-> In x l.
Proof. unfold set_of. rewrite fold_set_add_In. simpl. intuition. Qed.

Lemma fold_set_add_length (l : list str) :
  forall acc : list str,
    (List.length (fold_left set_add l acc) <= List.length acc + List.length l)%nat.
Proof.
  induction l as [|w l IH]; intros acc; simpl; [lia|].
  specialize (IH (set_add acc w)).
  assert (List.length (set_add acc w) <= S (List.length acc))%nat as A.
  { unfold set_add. destruct (mem w acc); [lia|].
    rewrite length_app. simpl. lia. }
  lia.
Qed.

Lemma set_of_length (l : list str) : (List.length (set_of l) <= List.length l)%nat.
Proof. exact (fold_set_add_length l []). Qed.

Lemma fold_set_add_NoDup (l : list str) :
  forall acc : list str, NoDup acc -> NoDup (fold_left set_add l acc).
Proof.
  induction l as [|w l IH]; intros acc H; simpl; [assumption|].
  apply IH. unfold set_add. destruct (mem w acc) eqn:E; [assumption|].
  apply NoDup_app; [assumption | repeat constructor; auto |].
  intros x Hx [<-|[]]. apply In_mem in Hx. congruence.
Qed.

Lemma set_of_NoDup (l : list str) : NoDup (set_of l).
Proof. apply fold_set_add_NoDup. constructor. Qed.

(** *** The generator case of [known] *)

Lemma known_generator_repeats (l : list str) :
  (forall x, In x (known_generator l) -> (2 <= count_occ string_dec l x)%nat)
  /\ (forall w x, In x (seek w l) ->
                  (x = w /\ (1 <= count_occ string_dec l w)%nat)
                  \/ (2 <= count_occ string_dec l x)%nat).
Proof.
  induction l as [|y l [IH1 IH2]]; split; simpl; try tauto.
  - intros x Hx. destruct (IH2 y x Hx) as [[-> H]|H];
      destruct (string_dec y _); try lia; congruence.
  - intros w x. destruct (String.eqb_spec y w) as [->|N].
    + intros [<-|Hx].
      * left. split; [reflexivity|]. destruct (string_dec w w); [lia|congruence].
      * right. specialize (IH1 x Hx). destruct (string_dec w x); lia.
    + intros Hx. destruct (IH2 w x Hx) as [[-> H]|H].
      * left. split; [reflexivity|]. destruct (string_dec y w); lia.
      * right. destruct (string_dec y x); lia.
Qed.

(** *** [Counter] *)

Lemma sum_from (l : list Z) : forall a : Z, fold_left Z.add l a = a + Difflib.sum l.
Proof.
  unfold Difflib.sum. induction l as [|x l IH]; intros a; simpl; [lia|].
  rewrite (IH (a + x)), (IH x). lia.
Qed.

Lemma sum_cons (x : Z) (l : list Z) : Difflib.sum (x :: l) = x + Difflib.sum l.
Proof. unfold Difflib.sum at 1. simpl. apply sum_from. Qed.

Lemma sum_counted (d : list (str * Z)) (w : str) :
  Difflib.sum (map snd (dict_set d w (arg 0 (dict_get d w) + 1)))
  = Difflib.sum (map snd d) + 1.
Proof.
  induction d as [|[k v] d IH]; simpl.
  - reflexivity.
  - destruct (String.eqb k w); simpl; rewrite !sum_cons; [lia|].
    rewrite IH. lia.
Qed.

Lemma sum_Counter_from (l : list str) :
  forall d : list (str * Z),
    Difflib.sum (map snd (fold_left (fun d w => dict_set d w (arg 0 (dict_get d w) + 1)) l d))
    = Difflib.sum (map snd d) + llen l.
Proof.
  unfold llen. induction l as [|w l IH]; intros d; simpl List.length; simpl fold_left.
  - lia.
  - rewrite IH, sum_counted. lia.
Qed.

Lemma sum_Counter (l : list str) : Difflib.sum (map snd (Counter l)) = llen l.
Proof. unfold Counter. now rewrite sum_Counter_from. Qed.

End DataFacts.
Import DataFacts.

(* ================================================================== *)
(** ** The edits of a word *)

Module EditFacts.

Lemma slice_split (s : str) :
  forall i : nat, (i <= String.length s)%nat ->
                  (slice_to s i ++ slice_from s i)%string = s.
Proof.
  unfold slice_to, slice_from.
  induction s as [|c s IH]; intros [|i] Hi; simpl in *; try reflexivity; try lia.
  - now rewrite substring_whole.
  - rewrite IH by lia. reflexivity.
Qed.

Lemma in_flat_map_splits {B} (f : str * str -> list B) (word : str) (n : nat) (e : B) :
  In e (flat_map f (map (fun i => (slice_to word i, slice_from word i)) (seq 0 n)))
  <-> exists i, (i < n)%nat /\ In e (f (slice_to word i, slice_from word i)).
Proof.
  rewrite in_flat_map. split.
  - intros (LR & H & He). apply in_map_iff in H. destruct H as (i & <- & Hi).
    apply in_seq in Hi. exists i. split; [lia | assumption].
  - intros (i & Hi & He). exists (slice_to word i, slice_from word i).
    split; [|assumption]. apply in_map_iff. exists i. split; [reflexivity|].
    apply in_seq. lia.
Qed.

(** The one-letter strings [c for c in letters]. *)
Lemma in_letters (cs : str) :
  In cs (map (fun c => String c EmptyString) (list_ascii_of_string letters))
  <-> exists c, In c (list_ascii_of_string letters) /\ cs = String c EmptyString.
Proof.
  rewrite in_map_iff. split; intros (c & H1 & H2); exists c; auto.
Qed.

Lemma nonempty_string (R : str) :
  negb (String.eqb R EmptyString) = true -> exists c R', R = String c R'.
Proof. destruct R as [|c R']; [discriminate | eauto]. Qed.

Lemma two_chars (R : str) :
  (1 <? len R) = true -> exists a b R', R = String a (String b R').
Proof.
  destruct R as [|a [|b R']]; try discriminate; eauto.
Qed.

(** [edits1(word)] holds exactly the strings one edit away from [word]:
    a deletion, a transposition of two adjacent characters, a replacement
    by a letter or an insertion of a letter. *)
Lemma edits1_spec (word e : str) :
  In e (edits1 word)
  <-> exists L R : str,
      word = (L ++ R)%string
      /\ ((exists c R', R = String c R' /\ e = (L ++ R')%string)
          \/ (exists a b R', R = String a (String b R')
                             /\ e = (L ++ String b (String a R'))%string)
          \/ (exists c d R', R = String d R'
                             /\ In c (list_ascii_of_string letters)
                             /\ e = (L ++ String c R')%string)
          \/ (exists c, In c (list_ascii_of_string letters)
                        /\ e = (L ++ String c R)%string)).
Proof.
  unfold edits1. rewrite set_of_In, !in_app_iff, !in_flat_map_splits. split.
  - intros [H|[H|[H|H]]]; destruct H as (i & Hi & H);
      exists (slice_to word i), (slice_from word i);
      (split; [symmetry; apply slice_split; lia|]).
    + destruct (negb _) eqn:E; [|destruct H]. destruct H as [<-|[]].
      apply nonempty_string in E. destruct E as (c & R' & E).
      left. exists c, R'. split; [assumption|]. now rewrite E, slice_from_tail.
    + destruct (1 <? _) eqn:E; [|destruct H]. destruct H as [<-|[]].
      apply two_chars in E. destruct E as (a & b & R' & E).
      right; left. exists a, b, R'. split; [assumption|]. rewrite E.
      unfold char_at. simpl String.substring.
      rewrite slice_from_two.
      now rewrite substring_nothing.
    + destruct (negb _) eqn:E; [|destruct H].
      apply nonempty_string in E. destruct E as (d & R' & E).
      apply in_map_iff in H. destruct H as (cs & <- & Hc).
      apply in_letters in Hc. destruct Hc as (c & Hc & ->).
      right; right; left. exists c, d, R'.
      split; [assumption|]. split; [assumption|].
      now rewrite E, slice_from_tail.
    + apply in_map_iff in H. destruct H as (cs & <- & Hc).
      apply in_letters in Hc. destruct Hc as (c & Hc & ->).
      right; right; right. exists c. split; [assumption | reflexivity].
  - intros (L & R & -> & H).
    assert (String.length L < String.length (L ++ R)%string + 1)%nat as Hi
        by (rewrite length_app_string; lia).
    destruct H as [(c & R' & -> & ->)|[(a & b & R' & -> & ->)
                  |[(c & d & R' & -> & Hc & ->)|(c & Hc & ->)]]].
    + left. exists (String.length L). split; [assumption|].
      rewrite slice_to_app, slice_from_app. simpl negb. cbv iota.
      rewrite slice_from_tail. now left.
    + right; left. exists (String.length L). split; [assumption|].
      rewrite slice_to_app, slice_from_app.
      replace (1 <? len (String a (String b R'))) with true
        by (symmetry; apply Z.ltb_lt; unfold len; simpl String.length; lia).
      unfold char_at. simpl String.substring.
      rewrite slice_from_two.
      rewrite substring_nothing. now left.
    + right; right; left. exists (String.length L). split; [assumption|].
      rewrite slice_to_app, slice_from_app. simpl negb. cbv iota.
      rewrite slice_from_tail. apply in_map_iff.
      exists (String c EmptyString). split; [reflexivity|].
      apply in_letters. eauto.
    + right; right; right. exists (String.length L). split; [assumption|].
      rewrite slice_to_app, slice_from_app. apply in_map_iff.
      exists (String c EmptyString). split; [reflexivity|].
      apply in_letters. eauto.
Qed.

End EditFacts.
Import EditFacts.

(* ================================================================== *)
(** ** Further facts on the functions of the corrector *)

Module CorrectorFacts.

(** The value of [levenshtein], whatever [n] is. *)
Lemma levenshtein_value (word : str) (wl : list str) (n : option Z) (c : option float) :
  levenshtein word wl n c
  = Ok (if 0 <=? arg 1 n
        then filter (fun d => fgt (Levenshtein.ratio word d) (arg (decimal 80 100) c)) wl
        else []).
Proof.
  destruct (Z.leb_spec 0 (arg 1 n)) as [H|H].
  - now apply levenshtein_all.
  - unfold levenshtein, index. simpl. f_equal.
    replace (llen [] <=? arg 1 n) with false
      by (symmetry; apply Z.leb_gt; exact H).
    induction wl as [|d wl IH]; simpl; [reflexivity|].
    now rewrite andb_false_r.
Qed.

Lemma fle_fgt_trans (c1 c2 r : float) :
  fle c1 c2 = true -> fgt r c2 = true -> fgt r c1 = true.
Proof.
  unfold fle, fgt, SFleb, SFltb. intros H1 H2.
  destruct (SFcompare c1 c2) as [k1|] eqn:E1; [|discriminate].
  destruct (SFcompare c2 r) as [[]|] eqn:E2; try discriminate.
  rewrite (SFcompare_trans _ _ _ _ _ E1 E2); [| destruct k1; congruence | congruence].
  now destruct k1.
Qed.

Lemma dict_get_set {V} (d : list (str * V)) (k k' : str) (v : V) :
  dict_get (dict_set d k v) k'
  = if String.eqb k k' then Some v else dict_get d k'.
Proof.
  induction d as [|[k0 v0] d IH]; simpl; [reflexivity|].
  destruct (String.eqb_spec k0 k) as [->|N]; simpl.
  - now destruct (String.eqb k k').
  - rewrite IH. destruct (String.eqb_spec k0 k') as [->|N'];
      [|reflexivity].
    apply not_eq_sym, String.eqb_neq in N. now rewrite N.
Qed.

Lemma Counter_from_count (l : list str) (w : str) :
  forall d : list (str * Z),
    arg 0 (dict_get (fold_left (fun d w => dict_set d w (arg 0 (dict_get d w) + 1)) l d) w)
    = arg 0 (dict_get d w) + Z.of_nat (count_occ string_dec l w).
Proof.
  induction l as [|x l IH]; intros d; simpl fold_left; simpl count_occ; [lia|].
  rewrite IH, dict_get_set.
  destruct (String.eqb_spec x w) as [->|N]; destruct (string_dec _ w); try congruence;
    simpl arg; lia.
Qed.

Lemma Counter_count (l : list str) (w : str) :
  arg 0 (dict_get (Counter l) w) = Z.of_nat (count_occ string_dec l w).
Proof. unfold Counter. now rewrite Counter_from_count. Qed.

(** A member of the default list under the default matcher. *)
Lemma member_suggestion (D : str) (cutoff : option float) (algo : option str) :
  In D MOST_COMMON_DOMAINS ->
  block_matching_chosen algo ->
  Difflib.valid_cutoff (arg (decimal 77 100) cutoff) = true ->
  suggest D cutoff None algo = Ok D.
Proof.
  intros HD [N1 N2] V.
  pose proof members_win as W. rewrite forallb_forall in W. specialize (W D HD).
  rewrite suggest_unfold. cbv zeta.
  assert (dict_get LOOKUP_TABLE D = None) as K.
  { unfold wins in W. rewrite !andb_true_iff in W.
    destruct W as [[[[[W _] _] _] _] _].
    now destruct (dict_get LOOKUP_TABLE D). }
  rewrite K.
  apply String.eqb_neq in N1, N2. rewrite N1, N2, V. f_equal.
  apply wins_best_match; try assumption.
  unfold Difflib.valid_cutoff in V. now apply andb_true_iff in V.
Qed.

(** Each value of the lookup table is a member of the default list, or is
    no key and has no domain of the list within the default cutoff. *)
Lemma lookup_values_settled :
  forallb (fun v => if mem v MOST_COMMON_DOMAINS then true
                    else match dict_get LOOKUP_TABLE v with
                         | Some _ => false
                         | None => String.eqb (best_match v MOST_COMMON_DOMAINS
                                                          (decimal 77 100)) v
                         end)
          (map snd LOOKUP_TABLE) = true.
Proof. vm_compute. reflexivity. Qed.

Lemma flat_map_length_le {A B} (f : A -> list B) (k : nat) (l : list A) :
  (forall x, In x l -> (List.length (f x) <= k)%nat) ->
  (List.length (flat_map f l) <= k * List.length l)%nat.
Proof.
  induction l as [|x l IH]; intros H; simpl; [lia|].
  rewrite length_app.
  specialize (H x (or_introl eq_refl)) as Hx.
  specialize (IH (fun y Hy => H y (or_intror Hy))). lia.
Qed.

Lemma edits1_length (word e : str) :
  In e (edits1 word) -> len word - 1 <= len e <= len word + 1.
Proof.
  intros He. apply edits1_spec in He.
  destruct He as (L & R & -> & H). unfold len.
  destruct H as [(c & R' & -> & ->)|[(a & b & R' & -> & ->)
                |[(c & d & R' & -> & _ & ->)|(c & _ & ->)]]];
    rewrite !length_app_string; simpl String.length; lia.
Qed.

Lemma splits_length_le {B} (f : str * str -> list B) (k : nat) (word : str) :
  (forall LR, (List.length (f LR) <= k)%nat) ->
  (List.length (flat_map f (map (fun i => (slice_to word i, slice_from word i))
                                (seq 0 (String.length word + 1))))
   <= k * (String.length word + 1))%nat.
Proof.
  intros H. eapply Nat.le_trans; [apply (flat_map_length_le f k); auto|].
  rewrite length_map, length_seq. lia.
Qed.

(** The last split has nothing on its right. *)
Lemma proper_splits_length_le {B} (f : str * str -> list B) (k : nat) (word : str) :
  (forall L, f (L, EmptyString) = []) ->
  (forall LR, (List.length (f LR) <= k)%nat) ->
  (List.length (flat_map f (map (fun i => (slice_to word i, slice_from word i))
                                (seq 0 (String.length word + 1))))
   <= k * String.length word)%nat.
Proof.
  intros H0 H.
  replace (String.length word + 1)%nat with (S (String.length word)) by lia.
  rewrite seq_S, map_app, flat_map_app, length_app. cbn [map flat_map Nat.add].
  assert (slice_from word (String.length word) = EmptyString) as HR.
  { unfold slice_from. rewrite Nat.sub_diag. apply substring_nothing. }
  rewrite HR, H0, app_nil_r. cbn [List.length].
  eapply Nat.le_trans; [apply Nat.add_le_mono_r, (flat_map_length_le f k); auto|].
  rewrite length_map, length_seq. lia.
Qed.

End CorrectorFacts.
Import CorrectorFacts.

(* ================================================================== *)
(** ** Further properties of the corrector *)

(** X1: [spelling] returns for no word and no list: [correction] hands
    [probability], which takes two arguments, to [max] as a key of one
    argument, and the first call raises [TypeError]. *)
Theorem spelling_never_returns
        (word : str) (word_list : list str) (n : option Z) (cutoff : option float) :
  spelling word word_list n cutoff = Raise TypeError.
Proof. apply spelling_raises. Qed.

(** X2: the exceptions of [suggest].  It raises exactly when the word is
    no key of the lookup table and either the algorithm is ['spellr']
    ([TypeError]) or the default matcher is chosen with a cutoff outside
    [0.0, 1.0] ([ValueError]); under ['levenshtein'] it never raises. *)
Theorem suggest_raises_exactly
        (word : str) (cutoff : option float) (override : option (list str))
        (algo : option str) (e : exn) :
  suggest word cutoff override algo = Raise e
  <-> dict_get LOOKUP_TABLE word = None
      /\ ((arg "difflib" algo = "spellr" /\ e = TypeError)
          \/ (block_matching_chosen algo
              /\ Difflib.valid_cutoff (arg (decimal 77 100) cutoff) = false
              /\ e = ValueError)).
Proof.
  rewrite suggest_unfold. unfold block_matching_chosen.
  destruct (dict_get LOOKUP_TABLE word) as [v|].
  { split; [discriminate | intros [[=] _]]. }
  cbv zeta.
  destruct (String.eqb_spec (arg "difflib" algo) "levenshtein") as [E1|N1].
  { split; [discriminate|]. rewrite E1.
    intros [_ [[[=] _]|[[N _] _]]]. congruence. }
  destruct (String.eqb_spec (arg "difflib" algo) "spellr") as [E2|N2].
  { split.
    - intros [= <-]. split; [reflexivity|]. now left.
    - intros [_ [[_ ->]|[[_ N] _]]]; [reflexivity | congruence]. }
  destruct (Difflib.valid_cutoff _).
  - split; [discriminate|]. intros [_ [[E _]|[_ [[=] _]]]]. congruence.
  - split.
    + intros [= <-]. split; [reflexivity|]. right. auto.
    + intros [_ [[E _]|[_ [_ ->]]]]; [congruence | reflexivity].
Qed.

Lemma suggest_raises_exactly_witness :
  suggest "gmal.com" (Some (decimal 15 10)) None None = Raise ValueError.
Proof.
  apply (proj2 (suggest_raises_exactly "gmal.com" (Some (decimal 15 10)) None None
                                      ValueError)).
  split; [reflexivity|]. right.
  split; [split; discriminate|]. split; [vm_compute|]; reflexivity.
Defined.

(** X3: [candidates(word)] is the set holding [word] alone, for every
    word: [known([word])] is never empty, so neither the edits nor the
    table of frequencies are looked at. *)
Theorem candidates_is_the_word_alone (word : str) :
  candidates word = a_set [word].
Proof.
  unfold candidates, known. simpl. rewrite String.eqb_refl. reflexivity.
Qed.

(** X4: handed a generator, [known] keeps only strings the generator
    yields at least twice: the membership test consumes the generator it
    is iterating. *)
Theorem known_of_a_generator_keeps_repeats (l : list str) :
  Forall (fun w => (2 <= count_occ string_dec l w)%nat) (known (a_generator l)).
Proof.
  apply Forall_forall. intros w Hw. unfold known in Hw.
  apply (proj1 (set_of_In _ _)) in Hw.
  exact (proj1 (known_generator_repeats l) w Hw).
Qed.

(** X5: [levenshtein] returns every domain of the list whose ratio
    exceeds the cutoff (0.80 when none is given), in the order of the
    list, and never raises; [n] puts no bound on their number, and a
    negative [n] empties the result. *)
Theorem levenshtein_returns_every_match
        (word : str) (word_list : list str) (n : option Z) (cutoff : option float) :
  levenshtein word word_list n cutoff
  = Ok (if 0 <=? arg 1 n
        then filter (fun d => fgt (Levenshtein.ratio word d) (arg (decimal 80 100) cutoff))
                    word_list
        else []).
Proof. apply levenshtein_value. Qed.

(** X6: raising the cutoff of [levenshtein] never adds a domain. *)
Theorem levenshtein_cutoff_is_monotone
        (word : str) (word_list : list str) (n : option Z) (c1 c2 : float) :
  fle c1 c2 = true ->
  exists l1 l2,
    levenshtein word word_list n (Some c1) = Ok l1
    /\ levenshtein word word_list n (Some c2) = Ok l2
    /\ incl l2 l1.
Proof.
  intros H. rewrite !levenshtein_value. do 2 eexists.
  split; [reflexivity|]. split; [reflexivity|].
  destruct (0 <=? arg 1 n); [|intros d []].
  intros d Hd. apply filter_In in Hd. destruct Hd as [Hd G].
  apply filter_In. split; [assumption|].
  simpl arg in *. now apply (fle_fgt_trans c1 c2).
Qed.

Lemma levenshtein_cutoff_is_monotone_witness :
  exists l1 l2,
    levenshtein "gmal.com" ["aol.com"; "gmail.com"] None (Some (decimal 77 100)) = Ok l1
    /\ levenshtein "gmal.com" ["aol.com"; "gmail.com"] None (Some (decimal 80 100)) = Ok l2
    /\ incl l2 l1.
Proof.
  apply (levenshtein_cutoff_is_monotone "gmal.com" ["aol.com"; "gmail.com"] None
                                        (decimal 77 100) (decimal 80 100)).
  vm_compute. reflexivity.
Defined.

(** X7: [edits1(word)] is exactly the set of the strings one edit away
    from [word]: a character deleted, two adjacent characters swapped, a
    character replaced by a letter of [a..z], or such a letter
    inserted. *)
Theorem edits1_is_one_edit_away (word e : str) :
  In e (edits1 word)
  <-> exists L R : str,
      word = (L ++ R)%string
      /\ ((exists c R', R = String c R' /\ e = (L ++ R')%string)
          \/ (exists a b R', R = String a (String b R')
                             /\ e = (L ++ String b (String a R'))%string)
          \/ (exists c d R', R = String d R'
                             /\ In c (list_ascii_of_string letters)
                             /\ e = (L ++ String c R')%string)
          \/ (exists c, In c (list_ascii_of_string letters)
                        /\ e = (L ++ String c R)%string)).
Proof. apply edits1_spec. Qed.

Lemma edits1_is_one_edit_away_witness : In "gmal.com" (edits1 "gmail.com").
Proof.
  apply (proj2 (edits1_is_one_edit_away "gmail.com" "gmal.com")).
  exists "gma", "il.com". split; [reflexivity|].
  left. exists "i"%char, "l.com". split; reflexivity.
Defined.

(** X8: every string of [edits1(word)] is at most one character shorter
    or longer than [word]. *)
Theorem edits1_changes_the_length_by_one (word : str) :
  Forall (fun e => len word - 1 <= len e <= len word + 1) (edits1 word).
Proof. apply Forall_forall. intros e. apply edits1_length. Qed.

(** X9: [edits1(word)] is a set, without repetition, of at most
    [54 * len(word) + 26] strings. *)
Theorem edits1_size (word : str) :
  NoDup (edits1 word) /\ llen (edits1 word) <= 54 * len word + 26.
Proof.
  split; [apply set_of_NoDup|].
  unfold llen, len.
  cut (List.length (edits1 word) <= 54 * String.length word + 26)%nat; [lia|].
  unfold edits1. cbv zeta.
  eapply Nat.le_trans; [apply set_of_length|].
  rewrite !length_app.
  transitivity (1 * String.length word
                + (1 * String.length word
                   + (26 * String.length word + 26 * (String.length word + 1))))%nat;
    [|lia].
  assert (forall A (f : str -> A),
             List.length (map f (map (fun c => String c EmptyString)
                                     (list_ascii_of_string letters))) = 26%nat) as HC
      by (intros; now rewrite !length_map).
  repeat apply Nat.add_le_mono.
  - apply proper_splits_length_le; [reflexivity|].
    intros [L R]. destruct (negb _); simpl; lia.
  - apply proper_splits_length_le; [reflexivity|].
    intros [L R]. destruct (1 <? _); simpl; lia.
  - apply proper_splits_length_le; [reflexivity|].
    intros [L R]. destruct (negb _); [rewrite HC|simpl]; lia.
  - apply splits_length_le.
    intros [L R]. rewrite HC. lia.
Qed.

(** X10: the strings of [edits2(word)] are at most two characters shorter
    or longer than [word], and [word] itself is one of them, for every
    word. *)
Theorem edits2_reaches_the_word (word : str) :
  In word (edits2 word)
  /\ Forall (fun e => len word - 2 <= len e <= len word + 2) (edits2 word).
Proof.
  unfold edits2. split.
  - apply in_flat_map. exists (String "a" word). split.
    + apply edits1_spec. exists EmptyString, word. split; [reflexivity|].
      right; right; right. exists "a"%char. split; [|reflexivity].
      simpl. now left.
    + apply edits1_spec. exists EmptyString, (String "a" word).
      split; [reflexivity|]. left. exists "a"%char, word. now split.
  - apply Forall_forall. intros e He. apply in_flat_map in He.
    destruct He as (e1 & H1 & H2).
    pose proof (edits1_length word e1 H1) as B1.
    pose proof (edits1_length e1 e H2) as B2.
    lia.
Qed.

(** X11: with its defaults, [suggest] is idempotent: what it returns for a
    word is returned unchanged when handed back to it. *)
Theorem suggest_is_idempotent (word : str) (algo : option str) :
  block_matching_chosen algo ->
  exists v, suggest word None None algo = Ok v /\ suggest v None None algo = Ok v.
Proof.
  intros A.
  assert (Difflib.valid_cutoff (arg (decimal 77 100) None) = true) as V
      by (vm_compute; reflexivity).
  destruct (suggest_returns word None None algo) as [v Hv]; [right; right; auto|].
  exists v. split; [assumption|].
  destruct (suggest_origin _ _ _ _ _ Hv) as [H|[H| ->]].
  - now apply member_suggestion.
  - pose proof lookup_values_settled as S.
    rewrite forallb_forall in S. specialize (S v H).
    destruct (mem v MOST_COMMON_DOMAINS) eqn:M.
    + apply member_suggestion; [now apply mem_In | assumption | assumption].
    + rewrite suggest_unfold. cbv zeta.
      destruct (dict_get LOOKUP_TABLE v); [discriminate|].
      destruct A as [N1 N2]. apply String.eqb_neq in N1, N2.
      rewrite N1, N2, V. f_equal. now apply String.eqb_eq.
  - assumption.
Qed.

Lemma suggest_is_idempotent_witness :
  exists v, suggest "facebook" None None None = Ok v
            /\ suggest v None None None = Ok v.
Proof.
  apply (suggest_is_idempotent "facebook" None). split; discriminate.
Defined.

(** X12: [probability(word, Counter(word_list))], called with both its
    arguments, is the number of occurrences of [word] in [word_list]
    divided by the length of the list, and raises [ZeroDivisionError] for
    the empty list. *)
Theorem probability_is_the_relative_frequency (word : str) (word_list : list str) :
  call probability [VStr word; VCounter (Counter word_list)]
  = if llen word_list =? 0 then Raise ZeroDivisionError
    else Ok (fdiv (float_of_int (Z.of_nat (count_occ string_dec word_list word)))
                  (float_of_int (llen word_list))).
Proof.
  unfold call, probability. cbn [List.length params code Nat.eqb].
  now rewrite sum_Counter, Counter_count.
Qed.

(** X13: handed a list or a set, [known] filters nothing: a string is in
    [known(words)] exactly when it is in [words], whatever the table of
    frequencies holds. *)
Theorem known_keeps_the_whole (l : list str) (w : str) :
  (In w (known (a_list l)) <-> In w l) /\ (In w (known (a_set l)) <-> In w l).
Proof.
  destruct (known_is_reflexive l) as [E1 E2]. rewrite E1, E2.
  split; apply set_of_In.
Qed.
